(** * OrchestRate: the orchestration engine of [src/utils/OrchestRate.tsx]

    A shallow embedding of [createOrchestrator]: the item store ([queue]),
    the busy flag ([isPerforming]), the list of deferred continuations
    ([executionQueue]) and the three operations [orchestrate], [cancel] and
    [execute].  [execute] is an [async] function: it runs synchronously up
    to its next [await], where its activation is parked until the timer or
    the awaited promise wakes it.  The embedding makes the parked
    activations, the promises handed to callers and the observable events of
    a pass explicit, and the environment (callers, timers, effects settling)
    drives the engine one [Action] at a time.

    Conventions:
    - an effect is known by what calling it does (it throws, or returns
      something that fulfils or rejects once awaited); an effect that calls
      [orchestrate], [cancel] or [execute] itself before it returns or
      throws is outside the model, such calls are actions of the
      environment, taken between two steps;
    - a thrown value is an [Error] or a value [String()] can render; a value
      [String()] throws on (an object without [toString], a symbol) is
      outside the model, and with it the exception that then leaves the
      [catch] block of lines 160-170;
    - the result mapping is a finite map from ids; the id [__proto__],
      which names no own property of the object literal of line 137, is
      not told apart;
    - priorities and delays are integers; [timeout] is stored and, as in
      the source, never read; the [log] lines are not part of the model;
    - the microtask hops between the end of a pass and the fulfilment of the
      promises that depend on it happen within the step that ends the pass;
    - the React provider and hooks (lines 205-290) are callers of the engine;
      of them only the effect body of [useOrchestRateEffect] appears, as the
      two calls it makes. *)

From stdpp Require Import gmap strings list sorting.
From Stdlib Require Import ZArith Lia.

Open Scope Z_scope.

(** ** Values, failures and effects *)

(** What a [catch] clause receives: an [Error] object or any other value
    (kept as the text [String(error)] gives). *)
Inductive thrown : Type :=
| ThrownError (message : string)
| ThrownOther (rendering : string).

(** [error instanceof Error ? error.message : String(error)] (lines 164, 168). *)
Definition errorMessage (e : thrown) : string :=
  match e with
  | ThrownError message => message
  | ThrownOther rendering => rendering
  end.

(** The values stored in a result mapping; [VErrorDescriptor m] is the object
    [{ error: m }] built at lines 167-169. *)
Inductive value : Type :=
| VUndefined
| VString (s : string)
| VNumber (n : Z)
| VErrorDescriptor (error : string).

(** How [await Promise.resolve(x)] ends for the [x] an effect returned. *)
Inductive Settlement : Type :=
| Fulfils (v : value)
| Rejects (e : thrown).

(** [type EffectFunction = () => Promise<any> | any]: calling it either
    throws on the spot or returns something whose awaited value settles. *)
Inductive EffectFunction : Type :=
| Throws (e : thrown)
| Returns (s : Settlement).

(** ** Items and options *)

Record OrchestrationItem : Type := mkItem {
  id : string;
  effect : EffectFunction;
  priority : Z;
  preDelay : Z;
  postDelay : Z;
  timeout : option Z
}.

(** The [options] argument of [orchestrate]; an absent field is [None]. *)
Record Options : Type := mkOptions {
  optPriority : option Z;
  optPreDelay : option Z;
  optPostDelay : option Z;
  optTimeout : option Z
}.

Definition noOptions : Options := mkOptions None None None None.

(** The options [{ priority: p }]. *)
Definition withPriority (p : Z) : Options := mkOptions (Some p) None None None.

(** Lines 97-105: destructuring with defaults, then the item literal. *)
Definition makeItem (k : string) (eff : EffectFunction) (options : Options)
  : OrchestrationItem :=
  {| id := k;
     effect := eff;
     priority := default 0 (optPriority options);
     preDelay := default 0 (optPreDelay options);
     postDelay := default 0 (optPostDelay options);
     timeout := optTimeout options |}.

(** ** The store

    [queue] is a JS [Set] of item objects: it keeps insertion order and
    compares members by object identity.  Every [orchestrate] call builds a
    fresh object, so the set is the list of its members in insertion order
    and an object is identified by its position. *)

Definition hasId (k : string) (i : OrchestrationItem) : Prop := id i = k.

#[global] Instance hasId_dec k i : Decision (hasId k i).
Proof. unfold hasId. apply _. Defined.

(** Lines 106-107:
    [queue.delete([...queue].find((i) => i.id === id) || item); queue.add(item)].
    When nothing is found the fresh [item] is deleted, which changes nothing. *)
Definition orchestrate (k : string) (eff : EffectFunction) (options : Options)
    (queue : list OrchestrationItem) : list OrchestrationItem :=
  let item := makeItem k eff options in
  match list_find (hasId k) queue with
  | Some (pos, _) => delete pos queue ++ [item]
  | None => queue ++ [item]
  end.

(** Lines 112-116. *)
Definition cancel (k : string) (queue : list OrchestrationItem)
  : list OrchestrationItem :=
  match list_find (hasId k) queue with
  | Some (pos, _) => delete pos queue
  | None => queue
  end.

(** ** The run order

    Line 138: [[...queue].sort((a, b) => b.priority - a.priority)].
    [Array.prototype.sort] is stable: [a] ends up in front of a [b] that
    came after it exactly when the comparator gives
    [b.priority - a.priority <= 0].  The store is sorted by insertion from
    its end, each item going in front of the first item the comparator
    allows (lemma [stable_sort_unique]: no stable sort gives another
    result). *)

Fixpoint insertByPriority (a : OrchestrationItem) (l : list OrchestrationItem)
  : list OrchestrationItem :=
  match l with
  | [] => [a]
  | b :: l' =>
      if priority b - priority a <=? 0 then a :: b :: l'
      else b :: insertByPriority a l'
  end.

Definition sortByPriority (l : list OrchestrationItem) : list OrchestrationItem :=
  foldr insertByPriority [] l.

(** ** Promises, activations and the world *)

Inductive PromiseState : Type :=
| Pending
| Fulfilled (r : gmap string value)
| Rejected (e : thrown).

(** A deferred continuation (lines 123-127) is known by the promises that
    settle with the result of the [execute()] call it makes: the promise of
    the caller that was deferred. *)
Abbreviation Continuation := (list nat).

(** The three [await]s of the loop body (lines 153, 157, 174). *)
Inductive AwaitPoint : Type :=
| AwaitPreDelay
| AwaitEffect (s : Settlement)
| AwaitPostDelay.

(** A parked activation of [execute]: its locals ([results], the iteration
    over [sortedQueue] as the item in hand and the items still to come), the
    [await] it sits on, and the promises that receive what it returns. *)
Record Frame : Type := mkFrame {
  waiters : Continuation;
  results : gmap string value;
  current : OrchestrationItem;
  remaining : list OrchestrationItem;
  awaiting : AwaitPoint
}.

(** What a pass does that can be observed from outside. *)
Inductive Event : Type :=
| EvSetTimeout (k : string) (ms : Z)   (* lines 153, 174: setTimeout(resolve, ms) *)
| EvTimerFired (k : string)            (* that timer woke the pass *)
| EvInvoke (k : string)                (* line 157: item.effect() *)
| EvStore (k : string) (v : value)     (* lines 158, 167: results[item.id] = ... *)
| EvPassDone (r : gmap string value).  (* lines 181-183, with the pass's results *)

Record World : Type := mkWorld {
  queue : list OrchestrationItem;
  isPerforming : bool;
  executionQueue : list Continuation;
  suspended : list Frame;
  promises : list PromiseState;
  trace : list Event
}.

Definition initial : World := mkWorld [] false [] [] [] [].

Definition setQueue (q : list OrchestrationItem) (w : World) : World :=
  mkWorld q (isPerforming w) (executionQueue w) (suspended w) (promises w) (trace w).
Definition setPerforming (b : bool) (w : World) : World :=
  mkWorld (queue w) b (executionQueue w) (suspended w) (promises w) (trace w).
Definition setExecutionQueue (c : list Continuation) (w : World) : World :=
  mkWorld (queue w) (isPerforming w) c (suspended w) (promises w) (trace w).
Definition setSuspended (fs : list Frame) (w : World) : World :=
  mkWorld (queue w) (isPerforming w) (executionQueue w) fs (promises w) (trace w).
Definition setPromises (ps : list PromiseState) (w : World) : World :=
  mkWorld (queue w) (isPerforming w) (executionQueue w) (suspended w) ps (trace w).
Definition emit (e : Event) (w : World) : World :=
  mkWorld (queue w) (isPerforming w) (executionQueue w) (suspended w) (promises w)
          (trace w ++ [e]).

(** Resolving a promise that is no longer pending does nothing. *)
Definition fulfil (r : gmap string value) (ps : list PromiseState) (n : nat)
  : list PromiseState :=
  match ps !! n with
  | Some Pending => <[n := Fulfilled r]> ps
  | _ => ps
  end.

(** An [execute()] call returns [r]: every promise chained to it fulfils. *)
Definition settle (W : Continuation) (r : gmap string value) (w : World) : World :=
  setPromises (foldl (fulfil r) (promises w) W) w.

(** ** The loop body, from each point where it can be entered *)

Inductive Outcome : Type :=
| Parked (f : Frame) (w : World)
| Completed (r : gmap string value) (w : World).

Section LoopBody.
(** [W]: the promises of this activation; [item], [rest]: the iteration;
    [next]: the rest of the loop, run once this item is over. *)
Variable W : Continuation.
Variable item : OrchestrationItem.
Variable rest : list OrchestrationItem.
Variable next : gmap string value -> World -> Outcome.

(** Lines 172-175, then the next iteration. *)
Definition afterEffect (res : gmap string value) (w : World) : Outcome :=
  if bool_decide (postDelay item = 0) then next res w
  else Parked (mkFrame W res item rest AwaitPostDelay)
              (emit (EvSetTimeout (id item) (postDelay item)) w).

(** Lines 158 and 167: the entry written for a settled effect. *)
Definition entryOf (s : Settlement) : value :=
  match s with
  | Fulfils v => v
  | Rejects e => VErrorDescriptor (errorMessage e)
  end.

Definition store (v : value) (res : gmap string value) (w : World) : Outcome :=
  afterEffect (<[id item := v]> res) (emit (EvStore (id item) v) w).

(** Lines 156-170: the call is made; a synchronous throw reaches the
    [catch] at once, anything returned is awaited. *)
Definition invokeEffect (res : gmap string value) (w : World) : Outcome :=
  let w1 := emit (EvInvoke (id item)) w in
  match effect item with
  | Throws e => store (VErrorDescriptor (errorMessage e)) res w1
  | Returns s => Parked (mkFrame W res item rest (AwaitEffect s)) w1
  end.

(** Lines 151-154: [if (item.preDelay)] is taken for any non-zero delay. *)
Definition beginItem (res : gmap string value) (w : World) : Outcome :=
  if bool_decide (preDelay item = 0) then invokeEffect res w
  else Parked (mkFrame W res item rest AwaitPreDelay)
              (emit (EvSetTimeout (id item) (preDelay item)) w).
End LoopBody.

(** Lines 147-179: [for (const item of sortedQueue)]. *)
Fixpoint runLoop (W : Continuation) (items : list OrchestrationItem)
    (res : gmap string value) (w : World) : Outcome :=
  match items with
  | [] => Completed res w
  | item :: rest => beginItem W item rest (runLoop W rest) res w
  end.

(** A parked activation is woken at its [await]. *)
Definition resume (f : Frame) (w : World) : Outcome :=
  let next := runLoop (waiters f) (remaining f) in
  match awaiting f with
  | AwaitPreDelay =>
      invokeEffect (waiters f) (current f) (remaining f) next (results f)
                   (emit (EvTimerFired (id (current f))) w)
  | AwaitEffect s =>
      store (waiters f) (current f) (remaining f) next (entryOf s) (results f) w
  | AwaitPostDelay =>
      next (results f) (emit (EvTimerFired (id (current f))) w)
  end.

(** ** [execute] *)

(** Lines 181-192, and the parking of an activation that reached an [await].
    [exec] is the [execute()] call made by the continuation taken from
    [executionQueue]: that call's result resolves the deferred caller
    (line 125) and is what this activation returns (lines 126, 188). *)
Definition conclude (exec : Continuation -> World -> option World)
    (W : Continuation) (o : Outcome) : option World :=
  match o with
  | Parked f w => Some (setSuspended (suspended w ++ [f]) w)
  | Completed res w =>
      let w1 := emit (EvPassDone res) (setPerforming false (setQueue [] w)) in
      match executionQueue w1 with
      | [] => Some (settle W res w1)
      | nextExecution :: others =>
          exec (nextExecution ++ W) (setExecutionQueue others w1)
      end
  end.

(** Lines 119-193.  [W] are the promises that settle with what this call
    returns.  Each nested call is made after one continuation left
    [executionQueue], so [fuel] above its length is never used up. *)
Fixpoint execute (fuel : nat) (W : Continuation) (w : World) : option World :=
  match fuel with
  | O => None
  | S fuel' =>
      if isPerforming w then
        Some (setExecutionQueue (executionQueue w ++ [W]) w)
      else if bool_decide (queue w = []) then
        Some (settle W ∅ w)
      else
        conclude (execute fuel') W
          (runLoop W (sortByPriority (queue w)) ∅ (setPerforming true w))
  end.

Definition fuelFor (w : World) : nat := S (length (executionQueue w)).

(** ** The environment *)

Inductive Action : Type :=
| CallOrchestrate (k : string) (eff : EffectFunction) (options : Options)
| CallCancel (k : string)
| CallExecute
| Wake (n : nat).

(** One turn of the event loop.  [CallExecute] hands the caller the promise
    numbered by the length of [promises]; [Wake n] fires the timer or settles
    the promise the [n]-th parked activation is waiting for. *)
Definition step (a : Action) (w : World) : option World :=
  match a with
  | CallOrchestrate k eff options =>
      Some (setQueue (orchestrate k eff options (queue w)) w)
  | CallCancel k =>
      Some (setQueue (cancel k (queue w)) w)
  | CallExecute =>
      let n := length (promises w) in
      execute (fuelFor w) [n] (setPromises (promises w ++ [Pending]) w)
  | Wake n =>
      match suspended w !! n with
      | None => None
      | Some f =>
          conclude (execute (fuelFor w)) (waiters f)
                   (resume f (setSuspended (delete n (suspended w)) w))
      end
  end.

Arguments step : simpl never.

Fixpoint run (acts : list Action) (w : World) : option World :=
  match acts with
  | [] => Some w
  | a :: acts' =>
      match step a w with
      | Some w' => run acts' w'
      | None => None
      end
  end.

(** * Vocabulary of the properties *)

(** The store holds at most one item per id. *)
Definition uniqueIds (q : list OrchestrationItem) : Prop := NoDup (id <$> q).

(** [x] may run before [y]. *)
Definition byPriority (x y : OrchestrationItem) : Prop := priority y <= priority x.

(** ** What a pass over given items is to do *)

(** The entry a pass writes for an item (lines 158, 167-169). *)
Definition entry (item : OrchestrationItem) : value :=
  match effect item with
  | Throws e => VErrorDescriptor (errorMessage e)
  | Returns s => entryOf s
  end.

(** A delay of [ms] in the turn of item [k]: nothing for [0], otherwise the
    timer is set and the pass goes on when it fires. *)
Definition timerEvents (k : string) (ms : Z) : list Event :=
  if bool_decide (ms = 0) then [] else [EvSetTimeout k ms; EvTimerFired k].

(** The turn of one item: pre-delay, call, entry, post-delay. *)
Definition itemEvents (item : OrchestrationItem) : list Event :=
  timerEvents (id item) (preDelay item)
  ++ [EvInvoke (id item); EvStore (id item) (entry item)]
  ++ timerEvents (id item) (postDelay item).

Definition passEvents (items : list OrchestrationItem) : list Event :=
  items ≫= itemEvents.

Definition passResults (items : list OrchestrationItem) (res : gmap string value)
  : gmap string value :=
  foldl (λ r item, <[id item := entry item]> r) res items.

(** The number of [await]s a turn goes through. *)
Definition timerAwaits (ms : Z) : nat := if bool_decide (ms = 0) then 0%nat else 1%nat.

Definition effectAwaits (eff : EffectFunction) : nat :=
  match eff with Throws _ => 0%nat | Returns _ => 1%nat end.

Definition itemAwaits (item : OrchestrationItem) : nat :=
  (timerAwaits (preDelay item) + effectAwaits (effect item)
   + timerAwaits (postDelay item))%nat.

Definition passAwaits (items : list OrchestrationItem) : nat :=
  sum_list (itemAwaits <$> items).

(** What is left of a pass that is parked. *)
Definition frameEvents (f : Frame) : list Event :=
  let item := current f in
  match awaiting f with
  | AwaitPreDelay =>
      [EvTimerFired (id item); EvInvoke (id item); EvStore (id item) (entry item)]
      ++ timerEvents (id item) (postDelay item)
  | AwaitEffect s =>
      [EvStore (id item) (entryOf s)] ++ timerEvents (id item) (postDelay item)
  | AwaitPostDelay => [EvTimerFired (id item)]
  end ++ passEvents (remaining f).

Definition frameResults (f : Frame) : gmap string value :=
  let item := current f in
  passResults (remaining f)
    match awaiting f with
    | AwaitPreDelay => <[id item := entry item]> (results f)
    | AwaitEffect s => <[id item := entryOf s]> (results f)
    | AwaitPostDelay => results f
    end.

Definition frameAwaits (f : Frame) : nat :=
  (match awaiting f with
   | AwaitPreDelay =>
       1 + effectAwaits (effect (current f)) + timerAwaits (postDelay (current f))
   | AwaitEffect _ => 1 + timerAwaits (postDelay (current f))
   | AwaitPostDelay => 1
   end + passAwaits (remaining f))%nat.

(** [w'] differs from [w] in its trace only. *)
Definition onlyTrace (w w' : World) : Prop :=
  w' = mkWorld (queue w) (isPerforming w) (executionQueue w) (suspended w)
               (promises w) (trace w').

(** The stretch of a pass that ended in [o] produced, or will still produce,
    the events that complete the trace to [t], the results [r], and needs [n]
    more wake-ups. *)
Definition meets (W : Continuation) (t : list Event) (r : gmap string value)
    (n : nat) (w0 : World) (o : Outcome) : Prop :=
  match o with
  | Parked f w =>
      waiters f = W ∧ trace w ++ frameEvents f = t ∧ frameResults f = r
      ∧ frameAwaits f = n ∧ onlyTrace w0 w
  | Completed res w => trace w = t ∧ res = r ∧ n = 0%nat ∧ onlyTrace w0 w
  end.

(** The ids of the effects a trace shows being called, in order. *)
Definition invocations (t : list Event) : list string :=
  omap (λ e, match e with EvInvoke k => Some k | _ => None end) t.

(** ** The end of a pass in closed form

    The call a drained continuation makes runs right after [queue.clear()]
    and [isPerforming = false] (lines 181-182, 188), so it takes the early
    return of line 133; [concluded] is [conclude] with that call evaluated
    (lemma [conclude_finish]). *)
Definition concluded (W : Continuation) (res : gmap string value) (w : World) : World :=
  let w1 := emit (EvPassDone res) (setPerforming false (setQueue [] w)) in
  match executionQueue w1 with
  | [] => settle W res w1
  | nextExecution :: others =>
      settle (nextExecution ++ W) ∅ (setExecutionQueue others w1)
  end.

Definition finish (W : Continuation) (o : Outcome) : World :=
  match o with
  | Parked f w => setSuspended (suspended w ++ [f]) w
  | Completed res w => concluded W res w
  end.

(** ** Runs *)

Definition reachable (w : World) : Prop := ∃ acts, run acts initial = Some w.

(** At most one activation of [execute] is inside a pass, and [isPerforming]
    tells whether there is one. *)
Definition exclusive (w : World) : Prop :=
  if isPerforming w then ∃ f, suspended w = [f] else suspended w = [].

(** [run], as long as every action is taken while a pass is in progress. *)
Fixpoint runPass (acts : list Action) (w : World) : option World :=
  match acts with
  | [] => Some w
  | a :: acts' =>
      if isPerforming w then
        match step a w with
        | Some w' => runPass acts' w'
        | None => None
        end
      else None
  end.

(** A pass admitted in [w0] by a call of [execute()] ran to its end, which
    left the world [w2]; [acts] is what the environment did in between. *)
Definition passOf (w0 : World) (acts : list Action) (w2 : World) : Prop :=
  isPerforming w0 = false ∧ queue w0 ≠ []
  ∧ step CallExecute w0 ≫= runPass acts = Some w2
  ∧ isPerforming w2 = false.

(** The events of [w2] that [w0] did not have yet. *)
Definition eventsSince (w0 w2 : World) : list Event :=
  drop (length (trace w0)) (trace w2).

(** ** Example sessions *)

(** [a] with priority 1, [b] with priority 3, [c] with priority 2; [b] throws
    and [c] waits 1000 ms before and 500 ms after its effect. *)
Definition registerABC : list Action :=
  [CallOrchestrate "a" (Returns (Fulfils (VString "A"))) (withPriority 1);
   CallOrchestrate "b" (Throws (ThrownError "boom")) (withPriority 3);
   CallOrchestrate "c" (Returns (Rejects (ThrownOther "late")))
                   (mkOptions (Some 2) (Some 1000) (Some 500) None)].

Definition afterABC : World := default initial (run registerABC initial).

(** [a] registers nothing. *)
Definition registersNothing (a : Action) : Prop :=
  match a with CallOrchestrate _ _ _ => False | _ => True end.

(** One item whose effect stays pending until it is woken, and the calls of
    [execute()] made meanwhile. *)
Definition registerA : Action :=
  CallOrchestrate "a" (Returns (Fulfils (VString "A"))) noOptions.

(** ** Vocabulary of the further properties *)

(** The item with its [timeout] field left [undefined]. *)
Definition withoutTimeout (i : OrchestrationItem) : OrchestrationItem :=
  mkItem (id i) (effect i) (priority i) (preDelay i) (postDelay i) None.

(** The milliseconds of all timers a trace shows being set. *)
Definition delaysSet (t : list Event) : Z :=
  foldr (λ e acc, match e with EvSetTimeout _ ms => ms + acc | _ => acc end) 0 t.

(** The milliseconds of all delays the items of a store ask for. *)
Definition delaysAsked (q : list OrchestrationItem) : Z :=
  foldr (λ x acc, preDelay x + postDelay x + acc) 0 q.

(** Three items registered with no options; every effect throws at once. *)
Definition registerXYZ : list Action :=
  [CallOrchestrate "x" (Throws (ThrownOther "no")) noOptions;
   CallOrchestrate "y" (Throws (ThrownOther "no")) noOptions;
   CallOrchestrate "z" (Throws (ThrownOther "no")) noOptions].

Definition afterXYZ : World := default initial (run registerXYZ initial).

(** The promises of the parked activations are promises of the table. *)
Definition waitersBounded (w : World) : Prop :=
  ∀ f, f ∈ suspended w -> ∀ n : nat, n ∈ waiters f -> (n < length (promises w))%nat.

(** Promise [n] belongs to a call that was deferred: it is pending with its
    continuation still in [executionQueue], or fulfilled with the empty
    mapping. *)
Definition deferredState (n : nat) (w : World) : Prop :=
  (promises w !! n = Some Pending ∧ n ∈ mjoin (executionQueue w)
   ∧ ∀ f, f ∈ suspended w -> n ∉ waiters f)
  ∨ promises w !! n = Some (Fulfilled ∅).

(** Lines 286-289, the body of the effect of [useOrchestRateEffect]:
    [orchestrate(id, effect, options); execute().catch(console.error)],
    as the calls it makes on the engine (the provider's callbacks of lines
    219-238 forward them to the orchestrator). *)
Definition useOrchestRateEffect (k : string) (eff : EffectFunction)
    (options : Options) : list Action :=
  [CallOrchestrate k eff options; CallExecute].

(** * Properties *)

Implicit Types (q l : list OrchestrationItem) (k : string) (w : World).
Implicit Types (f : Frame) (W : Continuation) (res r : gmap string value).
Implicit Types (acts : list Action) (items : list OrchestrationItem).

(** ** The store: one item per id *)

Lemma filter_uniqueIds (P : OrchestrationItem -> Prop) `{!∀ x, Decision (P x)} q :
  uniqueIds q -> uniqueIds (filter P q).
Proof.
  unfold uniqueIds. induction q as [|a q IH]; [done|].
  rewrite fmap_cons, NoDup_cons. intros [Ha Hq].
  rewrite filter_cons. destruct (decide (P a)); [|by apply IH].
  rewrite fmap_cons, NoDup_cons. split; [|by apply IH].
  intros (x & Hx & Hin)%list_elem_of_fmap. apply list_elem_of_filter in Hin as [_ Hin].
  apply Ha, list_elem_of_fmap. eauto.
Qed.

Lemma filter_absent k q :
  k ∉ id <$> q -> filter (λ i, id i ≠ k) q = q.
Proof.
  induction q as [|a q IH]; [done|].
  rewrite fmap_cons, not_elem_of_cons. intros [Hne Hq].
  rewrite filter_cons_True by done. by rewrite IH.
Qed.

(** With one item per id, deleting the object that [find] returns removes
    every item of that id. *)
Lemma delete_found k q pos x :
  uniqueIds q -> list_find (hasId k) q = Some (pos, x) ->
  delete pos q = filter (λ i, id i ≠ k) q.
Proof.
  unfold uniqueIds. revert pos. induction q as [|a q IH]; intros pos; [done|].
  rewrite fmap_cons, NoDup_cons. intros [Ha Hq]. csimpl.
  case_decide as Hk.
  - intros [= <- <-]. unfold hasId in Hk. subst k. simpl.
    rewrite filter_cons_False by (intros ?; done). by rewrite filter_absent.
  - destruct (list_find (hasId k) q) as [[pos' y]|] eqn:Hf; [|done].
    intros [= <- <-]. simpl. rewrite filter_cons_True by done.
    f_equal. by eapply IH.
Qed.

Lemma find_none_absent k q :
  list_find (hasId k) q = None -> filter (λ i, id i ≠ k) q = q.
Proof.
  intros Hn. apply filter_absent. intros (x & -> & Hin)%list_elem_of_fmap.
  apply list_find_None in Hn. rewrite Forall_forall in Hn. by apply (Hn x).
Qed.

Lemma orchestrate_unique k eff options q :
  uniqueIds q ->
  orchestrate k eff options q
  = filter (λ i, id i ≠ k) q ++ [makeItem k eff options].
Proof.
  intros Hq. unfold orchestrate.
  destruct (list_find (hasId k) q) as [[pos x]|] eqn:Hf.
  - by rewrite (delete_found k q pos x).
  - by rewrite find_none_absent.
Qed.

Lemma cancel_unique k q :
  uniqueIds q -> cancel k q = filter (λ i, id i ≠ k) q.
Proof.
  intros Hq. unfold cancel.
  destruct (list_find (hasId k) q) as [[pos x]|] eqn:Hf.
  - by rewrite (delete_found k q pos x).
  - by rewrite find_none_absent.
Qed.

Lemma orchestrate_uniqueIds k eff options q :
  uniqueIds q -> uniqueIds (orchestrate k eff options q).
Proof.
  intros Hq. rewrite orchestrate_unique by done.
  unfold uniqueIds. rewrite fmap_app. apply NoDup_app. split_and!.
  - by apply filter_uniqueIds.
  - intros j (x & -> & Hin)%list_elem_of_fmap.
    apply list_elem_of_filter in Hin as [Hne _].
    simpl. rewrite list_elem_of_singleton. done.
  - apply NoDup_singleton.
Qed.

Lemma cancel_uniqueIds k q : uniqueIds q -> uniqueIds (cancel k q).
Proof.
  intros Hq. rewrite cancel_unique by done. by apply filter_uniqueIds.
Qed.

(** ** The run order: a stable sort, descending by priority *)

Lemma insertByPriority_perm a l : insertByPriority a l ≡ₚ a :: l.
Proof.
  induction l as [|b l IH]; simpl; [done|].
  destruct (priority b - priority a <=? 0); [done|].
  rewrite IH. apply Permutation_swap.
Qed.

Lemma sortByPriority_perm l : sortByPriority l ≡ₚ l.
Proof.
  induction l as [|a l IH]; simpl; [done|].
  rewrite insertByPriority_perm. by rewrite IH.
Qed.

Lemma insertByPriority_sorted a l :
  StronglySorted byPriority l -> StronglySorted byPriority (insertByPriority a l).
Proof.
  induction 1 as [|b l Hl IH Hb]; simpl.
  - repeat constructor.
  - destruct (Z.leb_spec (priority b - priority a) 0) as [Hle|Hgt].
    + constructor; [by constructor|]. constructor; [unfold byPriority; lia|].
      eapply Forall_impl; [exact Hb|]. unfold byPriority. intros; lia.
    + constructor; [done|]. rewrite insertByPriority_perm.
      constructor; [unfold byPriority; lia|done].
Qed.

Lemma sortByPriority_sorted l : StronglySorted byPriority (sortByPriority l).
Proof.
  induction l as [|a l IH]; simpl; [constructor|].
  by apply insertByPriority_sorted.
Qed.

Lemma insertByPriority_stable p a l :
  filter (λ i, priority i = p) (insertByPriority a l)
  = filter (λ i, priority i = p) (a :: l).
Proof.
  induction l as [|b l IH]; simpl; [done|].
  destruct (Z.leb_spec (priority b - priority a) 0) as [Hle|Hgt]; [done|].
  rewrite (filter_cons _ b), IH, !(filter_cons _ a), (filter_cons _ b).
  destruct (decide (priority b = p)), (decide (priority a = p)); try done; lia.
Qed.

Lemma sortByPriority_stable p l :
  filter (λ i, priority i = p) (sortByPriority l)
  = filter (λ i, priority i = p) l.
Proof.
  induction l as [|a l IH]; simpl; [done|].
  rewrite insertByPriority_stable, !filter_cons. by rewrite IH.
Qed.

Lemma sublist_filter_mono {A} (P : A -> Prop) `{!∀ x, Decision (P x)} (l1 l2 : list A) :
  l1 `sublist_of` l2 -> filter P l1 `sublist_of` filter P l2.
Proof.
  induction 1 as [|x l1 l2 _ IH|x l1 l2 _ IH]; [done| |].
  - rewrite !filter_cons. destruct (decide (P x)); [by apply sublist_skip|done].
  - rewrite filter_cons. destruct (decide (P x)); [by apply sublist_cons|done].
Qed.

Lemma sorted_pair {A} (R : A -> A -> Prop) (l : list A) x y :
  StronglySorted R l -> [x; y] `sublist_of` l -> R x y.
Proof.
  induction 1 as [|a l Hl IH Ha]; [by intros ?%sublist_nil_r|].
  intros [Hs|(l' & [= -> <-] & Hs)]%sublist_cons_r; [by apply IH|].
  rewrite Forall_forall in Ha. apply Ha.
  eapply elem_of_sublist; [|exact Hs]. apply list_elem_of_singleton. done.
Qed.

(** Earlier in the run order means: priority at least as high, and for equal
    priorities earlier in the store. *)
Lemma sortByPriority_order l x y :
  [x; y] `sublist_of` sortByPriority l ->
  priority y <= priority x ∧ (priority x = priority y -> [x; y] `sublist_of` l).
Proof.
  intros Hs. split.
  - apply (sorted_pair byPriority _ x y (sortByPriority_sorted l) Hs).
  - intros Heq.
    apply (sublist_filter_mono (λ i, priority i = priority x)) in Hs.
    rewrite sortByPriority_stable in Hs.
    rewrite !filter_cons_True, filter_nil in Hs by done.
    etrans; [exact Hs|]. apply sublist_filter.
Qed.

(** Whatever algorithm [Array.prototype.sort] uses, a stable sort by this
    comparator has one possible result: a list in descending order of
    priority that keeps the items of each priority as they were is the list
    [sortByPriority] computes. *)
Lemma sorted_filters_eq l1 : ∀ l2,
  StronglySorted byPriority l1 -> StronglySorted byPriority l2 ->
  (∀ p, filter (λ i, priority i = p) l1 = filter (λ i, priority i = p) l2) ->
  l1 = l2.
Proof.
  assert (∀ x t l, StronglySorted byPriority l ->
            filter (λ i, priority i = priority x) (x :: t)
            = filter (λ i, priority i = priority x) l ->
            ∃ y t', l = y :: t' ∧ priority x <= priority y) as Hhead.
  { intros x t l Hl Hf. rewrite filter_cons_True in Hf by done.
    assert (x ∈ l) as Hx.
    { eapply (proj1 (list_elem_of_filter _ _ _)). rewrite <-Hf. constructor. }
    destruct Hl as [|y t' Ht' Hy]; [by apply elem_of_nil in Hx|].
    exists y, t'. split; [done|].
    apply elem_of_cons in Hx as [->|Hx]; [lia|].
    rewrite Forall_forall in Hy. by apply Hy. }
  induction l1 as [|x t1 IH]; intros l2 Hs1 Hs2 Hf.
  - destruct l2 as [|y t2]; [done|].
    specialize (Hf (priority y)). by rewrite filter_cons_True in Hf.
  - destruct (Hhead x t1 l2 Hs2 (Hf (priority x))) as (y & t2 & -> & Hxy).
    destruct (Hhead y t2 (x :: t1) Hs1 (eq_sym (Hf (priority y))))
      as (x' & t1' & [= <- <-] & Hyx).
    assert (priority x = priority y) as Hp by lia.
    pose proof (Hf (priority x)) as Hfx.
    rewrite !filter_cons_True in Hfx by done. injection Hfx as <- Hft.
    f_equal. apply StronglySorted_inv in Hs1 as [Hs1 _].
    apply StronglySorted_inv in Hs2 as [Hs2 _].
    apply IH; [done..|]. intros p. specialize (Hf p).
    rewrite !filter_cons in Hf. destruct (decide (priority x = p)); [|done].
    by injection Hf.
Qed.

Lemma stable_sort_unique l l' :
  StronglySorted byPriority l' ->
  (∀ p, filter (λ i, priority i = p) l' = filter (λ i, priority i = p) l) ->
  l' = sortByPriority l.
Proof.
  intros Hs Hf. apply sorted_filters_eq; [done|apply sortByPriority_sorted|].
  intros p. by rewrite sortByPriority_stable.
Qed.

(** ** The loop body against its description *)

Lemma onlyTrace_refl w : onlyTrace w w.
Proof. by destruct w. Qed.

Lemma onlyTrace_emit e w0 w : onlyTrace w0 w -> onlyTrace w0 (emit e w).
Proof. unfold onlyTrace. intros ->. done. Qed.

Lemma passEvents_cons item rest :
  passEvents (item :: rest) = itemEvents item ++ passEvents rest.
Proof. done. Qed.

(** The conjuncts of [meets] for an activation that has just been parked. *)
Ltac parked :=
  split_and!;
  first [ done
        | by apply onlyTrace_emit
        | by (unfold frameEvents; simpl; rewrite <-?app_assoc)
        | (unfold frameAwaits, passAwaits; simpl; lia) ].

Section LoopBodyMeets.
Variables (W : Continuation) (item : OrchestrationItem)
          (rest : list OrchestrationItem)
          (next : gmap string value -> World -> Outcome) (w0 : World).
Hypothesis next_meets : ∀ res w, onlyTrace w0 w ->
  meets W (trace w ++ passEvents rest) (passResults rest res)
        (passAwaits rest) w0 (next res w).

Lemma afterEffect_meets res w :
  onlyTrace w0 w ->
  meets W (trace w ++ timerEvents (id item) (postDelay item) ++ passEvents rest)
        (passResults rest res)
        (timerAwaits (postDelay item) + passAwaits rest) w0
        (afterEffect W item rest next res w).
Proof.
  intros Hw. unfold afterEffect, timerEvents, timerAwaits.
  case_bool_decide; simpl.
  - by apply next_meets.
  - parked.
Qed.

Lemma store_meets v res w :
  onlyTrace w0 w ->
  meets W (trace w ++ [EvStore (id item) v]
                   ++ timerEvents (id item) (postDelay item) ++ passEvents rest)
        (passResults rest (<[id item := v]> res))
        (timerAwaits (postDelay item) + passAwaits rest) w0
        (store W item rest next v res w).
Proof.
  intros Hw. unfold store.
  pose proof (afterEffect_meets (<[id item := v]> res)
                (emit (EvStore (id item) v) w)) as Hm.
  simpl in Hm. rewrite <-app_assoc in Hm. apply Hm. by apply onlyTrace_emit.
Qed.

Lemma invokeEffect_meets res w :
  onlyTrace w0 w ->
  meets W (trace w ++ [EvInvoke (id item); EvStore (id item) (entry item)]
                   ++ timerEvents (id item) (postDelay item) ++ passEvents rest)
        (passResults rest (<[id item := entry item]> res))
        (effectAwaits (effect item) + timerAwaits (postDelay item)
         + passAwaits rest) w0
        (invokeEffect W item rest next res w).
Proof.
  intros Hw. unfold invokeEffect, entry. destruct (effect item) as [e|s]; simpl.
  - pose proof (store_meets (VErrorDescriptor (errorMessage e)) res
                  (emit (EvInvoke (id item)) w)) as Hm.
    simpl in Hm. rewrite <-app_assoc in Hm. apply Hm. by apply onlyTrace_emit.
  - parked.
Qed.

Lemma beginItem_meets res w :
  onlyTrace w0 w ->
  meets W (trace w ++ passEvents (item :: rest))
        (passResults (item :: rest) res)
        (passAwaits (item :: rest)) w0
        (beginItem W item rest next res w).
Proof.
  intros Hw. rewrite passEvents_cons. unfold itemEvents, beginItem, passAwaits.
  rewrite fmap_cons. simpl sum_list. unfold itemAwaits at 1.
  unfold timerEvents at 1, timerAwaits at 1. case_bool_decide; simpl.
  - exact (invokeEffect_meets res w Hw).
  - parked.
Qed.
End LoopBodyMeets.

Lemma runLoop_meets W items res w0 w :
  onlyTrace w0 w ->
  meets W (trace w ++ passEvents items) (passResults items res)
        (passAwaits items) w0 (runLoop W items res w).
Proof.
  revert res w. induction items as [|item rest IH]; intros res w Hw.
  - simpl. unfold passEvents. simpl. by rewrite app_nil_r.
  - simpl runLoop. apply beginItem_meets; [|done]. intros. by apply IH.
Qed.

Lemma resume_meets f w :
  meets (waiters f) (trace w ++ frameEvents f) (frameResults f)
        (pred (frameAwaits f)) w (resume f w).
Proof.
  unfold resume, frameEvents, frameResults, frameAwaits.
  destruct (awaiting f) as [|s|]; simpl.
  - pose proof (invokeEffect_meets (waiters f) (current f) (remaining f)
                  (runLoop (waiters f) (remaining f)) w
                  (λ res' w' Hw', runLoop_meets _ _ res' w w' Hw')
                  (results f) (emit (EvTimerFired (id (current f))) w)) as Hm.
    simpl in Hm. rewrite <-app_assoc in Hm. apply Hm.
    apply onlyTrace_emit, onlyTrace_refl.
  - pose proof (store_meets (waiters f) (current f) (remaining f)
                  (runLoop (waiters f) (remaining f)) w
                  (λ res' w' Hw', runLoop_meets _ _ res' w w' Hw')
                  (entryOf s) (results f) w) as Hm.
    simpl in Hm. apply Hm, onlyTrace_refl.
  - pose proof (runLoop_meets (waiters f) (remaining f) (results f) w
                  (emit (EvTimerFired (id (current f))) w)) as Hm.
    simpl in Hm. rewrite <-app_assoc in Hm. apply Hm.
    apply onlyTrace_emit, onlyTrace_refl.
Qed.

(** ** [execute] and [step] in closed form *)

Lemma execute_idle_empty n W w :
  isPerforming w = false -> queue w = [] ->
  execute (S n) W w = Some (settle W ∅ w).
Proof. intros Hp Hq. simpl. rewrite Hp, Hq. done. Qed.

Lemma conclude_finish n W o :
  (∀ res w, o = Completed res w -> executionQueue w ≠ [] -> n ≠ 0%nat) ->
  conclude (execute n) W o = Some (finish W o).
Proof.
  intros Hn. destruct o as [f w|res w]; [done|].
  unfold conclude, finish, concluded. simpl.
  destruct (executionQueue w) as [|c others] eqn:Hc; [done|].
  destruct n as [|n]; [exfalso; apply (Hn res w); [done|by rewrite Hc|done]|].
  by rewrite execute_idle_empty.
Qed.

Lemma meets_onlyTrace W t r n w0 o :
  meets W t r n w0 o ->
  match o with Parked _ w | Completed _ w => onlyTrace w0 w end.
Proof. destruct o; simpl; [by intros (_ & _ & _ & _ & ?)|by intros (_ & _ & _ & ?)]. Qed.

Lemma step_execute w :
  step CallExecute w = Some
    (let n := length (promises w) in
     let w' := setPromises (promises w ++ [Pending]) w in
     if isPerforming w then setExecutionQueue (executionQueue w ++ [[n]]) w'
     else if bool_decide (queue w = []) then settle [n] ∅ w'
     else finish [n] (runLoop [n] (sortByPriority (queue w)) ∅
                              (setPerforming true w'))).
Proof.
  unfold step, fuelFor. simpl execute.
  destruct (isPerforming w); [done|]. case_bool_decide; [done|].
  apply conclude_finish. intros res w2 Ho Hne.
  set (w1 := setPerforming true (setPromises (promises w ++ [Pending]) w)) in *.
  pose proof (runLoop_meets [length (promises w)] (sortByPriority (queue w)) ∅
                w1 w1 (onlyTrace_refl w1)) as Hm.
  rewrite Ho in Hm. destruct Hm as (_ & _ & _ & Hw2).
  rewrite Hw2 in Hne. simpl in Hne. by destruct (executionQueue w).
Qed.

Lemma step_wake n f w :
  suspended w !! n = Some f ->
  step (Wake n) w
  = Some (finish (waiters f) (resume f (setSuspended (delete n (suspended w)) w))).
Proof.
  intros Hf. unfold step. rewrite Hf. apply conclude_finish. done.
Qed.

(** [step] fails only for a wake-up nobody waits for. *)
Lemma step_total a w :
  (∀ n, a = Wake n -> is_Some (suspended w !! n)) -> is_Some (step a w).
Proof.
  intros Ha. destruct a as [k eff options|k| |n]; [done|done| |].
  - rewrite step_execute. done.
  - destruct (Ha n eq_refl) as [f Hf]. by rewrite (step_wake n f).
Qed.

(** ** The end of a pass *)

Lemma concluded_fields W res w :
  isPerforming (concluded W res w) = false
  ∧ queue (concluded W res w) = []
  ∧ suspended (concluded W res w) = suspended w
  ∧ trace (concluded W res w) = trace w ++ [EvPassDone res]
  ∧ executionQueue (concluded W res w) = tail (executionQueue w).
Proof.
  unfold concluded. simpl. destruct (executionQueue w) eqn:Hc; simpl; by rewrite ?Hc.
Qed.

(** ** Runs and reachable worlds *)

Lemma run_app acts1 acts2 w :
  run (acts1 ++ acts2) w = run acts1 w ≫= run acts2.
Proof.
  revert w. induction acts1 as [|a acts1 IH]; intros w; simpl; [done|].
  destruct (step a w); simpl; [apply IH|done].
Qed.

Lemma reachable_initial : reachable initial.
Proof. by exists []. Qed.

Lemma reachable_step a w w' : reachable w -> step a w = Some w' -> reachable w'.
Proof.
  intros [acts Hacts] Hstep. exists (acts ++ [a]).
  rewrite run_app, Hacts. simpl. by rewrite Hstep.
Qed.

Lemma reachable_run acts w w' : reachable w -> run acts w = Some w' -> reachable w'.
Proof.
  revert w. induction acts as [|a acts IH]; intros w Hw; simpl.
  - by intros [= <-].
  - destruct (step a w) as [w1|] eqn:Hs; [|done]. apply IH.
    by apply (reachable_step a w).
Qed.

(** Induction over the steps that lead to a reachable world. *)
Lemma reachable_ind (P : World -> Prop) :
  P initial ->
  (∀ a w w', reachable w -> P w -> step a w = Some w' -> P w') ->
  ∀ w, reachable w -> P w.
Proof.
  intros Hinit Hstep w [acts Hacts]. revert w Hacts.
  induction acts as [|a acts IH] using rev_ind; intros w; simpl.
  - by intros [= <-].
  - rewrite run_app. destruct (run acts initial) as [w1|] eqn:Hr; [|done].
    simpl. destruct (step a w1) as [w2|] eqn:Hs; [|done]. intros [= <-].
    apply (Hstep a w1 w2); [by exists acts|by apply IH|done].
Qed.

Lemma runPass_run acts w w' : runPass acts w = Some w' -> run acts w = Some w'.
Proof.
  revert w. induction acts as [|a acts IH]; intros w; simpl; [done|].
  destruct (isPerforming w); [|done]. destruct (step a w); [apply IH|done].
Qed.

(** ** Mutual exclusion and the store invariant *)

Lemma finish_exclusive W o w0 t r n :
  meets W t r n w0 o -> suspended w0 = [] -> isPerforming w0 = true ->
  exclusive (finish W o).
Proof.
  destruct o as [f w|res w]; simpl.
  - intros (_ & _ & _ & _ & ->) Hs Hp. unfold exclusive. simpl.
    rewrite Hp, Hs. by exists f.
  - intros (_ & _ & _ & ->) Hs Hp.
    destruct (concluded_fields W res
      (mkWorld (queue w0) (isPerforming w0) (executionQueue w0) (suspended w0)
               (promises w0) (trace w))) as (Hp' & _ & Hs' & _).
    unfold exclusive. by rewrite Hp', Hs'.
Qed.

Lemma step_exclusive a w w' : exclusive w -> step a w = Some w' -> exclusive w'.
Proof.
  unfold exclusive at 1. intros Hex. destruct a as [k eff options|k| |n].
  - intros [= <-]. exact Hex.
  - intros [= <-]. exact Hex.
  - rewrite step_execute. intros [= <-]. simpl.
    destruct (isPerforming w) eqn:Hp.
    + unfold exclusive. simpl. by rewrite Hp.
    + case_bool_decide.
      * unfold exclusive. simpl. by rewrite Hp.
      * eapply finish_exclusive; [apply runLoop_meets, onlyTrace_refl|done..].
  - destruct (suspended w !! n) as [f|] eqn:Hf; [|by unfold step; rewrite Hf].
    rewrite (step_wake n f) by done. intros [= <-].
    destruct (isPerforming w) eqn:Hp; [|by rewrite Hex in Hf].
    destruct Hex as [f0 Hs]. rewrite Hs in Hf |- *.
    destruct n as [|n]; [|done]. simpl in Hf. injection Hf as ->.
    eapply finish_exclusive; [apply resume_meets|done..].
Qed.

Lemma reachable_exclusive w : reachable w -> exclusive w.
Proof.
  apply (reachable_ind exclusive); [done|]. intros a w1 w2 _. apply step_exclusive.
Qed.

Lemma finish_queue W o w0 t r n :
  meets W t r n w0 o -> queue (finish W o) = queue w0 ∨ queue (finish W o) = [].
Proof.
  destruct o as [f w|res w]; simpl.
  - intros (_ & _ & _ & _ & ->). by left.
  - intros _. right. apply concluded_fields.
Qed.

Lemma step_uniqueIds a w w' :
  uniqueIds (queue w) -> step a w = Some w' -> uniqueIds (queue w').
Proof.
  intros Hq. destruct a as [k eff options|k| |n].
  - intros [= <-]. simpl. by apply orchestrate_uniqueIds.
  - intros [= <-]. simpl. by apply cancel_uniqueIds.
  - rewrite step_execute. intros [= <-]. simpl.
    destruct (isPerforming w); [done|]. case_bool_decide; [done|].
    edestruct finish_queue as [-> | ->];
      [apply runLoop_meets, onlyTrace_refl|done|apply NoDup_nil_2].
  - destruct (suspended w !! n) as [f|] eqn:Hf; [|by unfold step; rewrite Hf].
    rewrite (step_wake n f) by done. intros [= <-].
    edestruct finish_queue as [-> | ->];
      [apply resume_meets|done|apply NoDup_nil_2].
Qed.

Lemma reachable_uniqueIds w : reachable w -> uniqueIds (queue w).
Proof.
  apply (reachable_ind (λ w, uniqueIds (queue w))); [apply NoDup_nil_2|].
  intros a w1 w2 _. apply step_uniqueIds.
Qed.

(** ** Promises *)

Lemma fulfil_lookup r (ps : list PromiseState) (m n : nat) :
  fulfil r ps m !! n
  = match ps !! n with
    | Some Pending => if decide (n = m) then Some (Fulfilled r) else Some Pending
    | o => o
    end.
Proof.
  unfold fulfil. destruct (ps !! m) as [[| |]|] eqn:Hm.
  - destruct (decide (n = m)) as [->|Hne].
    + rewrite Hm. apply list_lookup_insert_eq. by eapply lookup_lt_Some.
    + rewrite list_lookup_insert_ne by done. by destruct (ps !! n) as [[| |]|].
  - destruct (ps !! n) as [[| |]|] eqn:Hn; try done. case_decide; [congruence|done].
  - destruct (ps !! n) as [[| |]|] eqn:Hn; try done. case_decide; [congruence|done].
  - destruct (ps !! n) as [[| |]|] eqn:Hn; try done. case_decide; [congruence|done].
Qed.

Lemma settled_lookup r W (ps : list PromiseState) (n : nat) :
  foldl (fulfil r) ps W !! n
  = match ps !! n with
    | Some Pending => if decide (n ∈ W) then Some (Fulfilled r) else Some Pending
    | o => o
    end.
Proof.
  revert ps. induction W as [|m W IH]; intros ps; simpl.
  - by destruct (ps !! n) as [[| |]|].
  - rewrite IH, fulfil_lookup. destruct (ps !! n) as [[| |]|]; try done.
    destruct (decide (n = m)) as [->|Hne].
    + rewrite decide_True by constructor. done.
    + destruct (decide (n ∈ W)).
      * rewrite decide_True by (by constructor). done.
      * rewrite decide_False by (by apply not_elem_of_cons). done.
Qed.

Lemma settle_pending r W w (n : nat) :
  n ∈ W -> promises w !! n = Some Pending ->
  promises (settle W r w) !! n = Some (Fulfilled r).
Proof.
  intros Hin Hp. unfold settle. simpl. rewrite settled_lookup, Hp.
  by rewrite decide_True.
Qed.

Lemma concluded_promises W res w (n : nat) :
  n ∈ W -> promises w !! n = Some Pending ->
  promises (concluded W res w) !! n
  = Some (Fulfilled (if executionQueue w is [] then res else ∅)).
Proof.
  intros Hin Hp. unfold concluded. simpl.
  destruct (executionQueue w) as [|c others]; simpl.
  - by apply settle_pending.
  - apply settle_pending; [apply elem_of_app; by right|done].
Qed.

(** ** A pass from a parked activation to its end *)

Lemma runPass_idle acts w w2 :
  isPerforming w = false -> runPass acts w = Some w2 -> acts = [] ∧ w2 = w.
Proof.
  intros Hp. destruct acts as [|a acts]; simpl; [by intros [= <-]|].
  by rewrite Hp.
Qed.

Lemma parked_pass acts : ∀ w f w2,
  isPerforming w = true -> suspended w = [f] ->
  (∀ n : nat, n ∈ waiters f -> promises w !! n = Some Pending) ->
  runPass acts w = Some w2 -> isPerforming w2 = false ->
  trace w2 = trace w ++ frameEvents f ++ [EvPassDone (frameResults f)]
  ∧ queue w2 = [] ∧ suspended w2 = []
  ∧ ∀ n : nat, n ∈ waiters f ->
      (executionQueue w = [] -> CallExecute ∉ acts ->
       promises w2 !! n = Some (Fulfilled (frameResults f)))
      ∧ (executionQueue w ≠ [] ∨ CallExecute ∈ acts ->
         promises w2 !! n = Some (Fulfilled ∅)).
Proof.
  induction acts as [|a acts IH]; intros w f w2 Hp Hs Hpend; simpl.
  { intros [= <-] Hidle. congruence. }
  rewrite Hp. destruct (step a w) as [w'|] eqn:Hstep; [|done].
  intros Hrun Hidle.
  assert (∀ w', isPerforming w' = true -> suspended w' = [f] ->
            promises w' = promises w ∨ promises w' = promises w ++ [Pending] ->
            trace w' = trace w ->
            runPass acts w' = Some w2 ->
            (executionQueue w' ≠ executionQueue w -> a = CallExecute) ->
            (a = CallExecute -> executionQueue w' ≠ []) ->
            trace w2 = trace w ++ frameEvents f ++ [EvPassDone (frameResults f)]
            ∧ queue w2 = [] ∧ suspended w2 = []
            ∧ ∀ n : nat, n ∈ waiters f ->
                (executionQueue w = [] -> CallExecute ∉ a :: acts ->
                 promises w2 !! n = Some (Fulfilled (frameResults f)))
                ∧ (executionQueue w ≠ [] ∨ CallExecute ∈ a :: acts ->
                   promises w2 !! n = Some (Fulfilled ∅))) as Hsame.
  { clear w' Hstep Hrun. intros w' Hp' Hs' Hps Htr Hrun Hdef Hne.
    destruct (IH w' f w2 Hp' Hs') as (Ht & Hq & Hsus & Hprom); [|done..|].
    { intros n Hn. destruct Hps as [-> | ->]; [by apply Hpend|].
      apply lookup_app_l_Some. by apply Hpend. }
    rewrite Htr in Ht. split_and!; [done..|]. intros n Hn.
    destruct (Hprom n Hn) as [Hres Hemp]. split.
    - intros Heq [Ha Hacts]%not_elem_of_cons.
      apply Hres; [|done].
      destruct (decide (executionQueue w' = executionQueue w)) as [->|Hd]; [done|].
      by destruct Ha; symmetry; apply Hdef.
    - intros [Heq|[<-|Hin]%elem_of_cons].
      + apply Hemp. left.
        destruct (decide (executionQueue w' = executionQueue w)) as [->|Hd]; [done|].
        by apply Hne, Hdef.
      + apply Hemp. left. by apply Hne.
      + apply Hemp. by right. }
  destruct a as [k eff options|k| |m].
  - injection Hstep as <-.
    refine (Hsame _ _ _ _ _ Hrun _ _); simpl; [done|done|by left|done..].
  - injection Hstep as <-.
    refine (Hsame _ _ _ _ _ Hrun _ _); simpl; [done|done|by left|done..].
  - rewrite step_execute in Hstep. simpl in Hstep. rewrite Hp in Hstep.
    injection Hstep as <-.
    refine (Hsame _ _ _ _ _ Hrun _ _); simpl; [done|done|by right|done|done|].
    intros _. by destruct (executionQueue w).
  - clear Hsame.
    destruct (suspended w !! m) as [f'|] eqn:Hf; [|by unfold step in Hstep; rewrite Hf in Hstep].
    rewrite (step_wake m f') in Hstep by done. injection Hstep as <-.
    rewrite Hs in Hf, Hrun. destruct m as [|m]; [|done]. injection Hf as <-.
    simpl delete in Hrun.
    pose proof (resume_meets f (setSuspended [] w)) as Hm.
    destruct (resume f (setSuspended [] w)) as [f1 w1|res w1].
    + destruct Hm as (HW & Ht & Hr & _ & Hw1). simpl in Ht, Hw1.
      rewrite Hw1 in Hrun. simpl in Hrun.
      apply IH with (f := f1) in Hrun as (Ht2 & Hq & Hsus & Hprom);
        [|done|done|by rewrite HW|done].
      simpl in Ht2. rewrite Hr in Ht2, Hprom. split_and!; [|done|done|].
      { by rewrite Ht2, !app_assoc, Ht. }
      intros n Hn. rewrite <-HW in Hn. destruct (Hprom n Hn) as [Hres Hemp].
      simpl in Hres, Hemp. split.
      * intros Heq [_ Hacts]%not_elem_of_cons. by apply Hres.
      * intros [Heq|[[=]|Hin]%elem_of_cons]; apply Hemp; [by left|by right].
    + destruct Hm as (Ht & -> & _ & Hw1). simpl in Ht, Hw1.
      destruct (concluded_fields (waiters f) (frameResults f) w1)
        as (Hp1 & Hq1 & Hs1 & Ht1 & _).
      destruct (runPass_idle _ _ _ Hp1 Hrun) as [-> ->].
      unfold onlyTrace in Hw1.
      assert (suspended w1 = [] ∧ promises w1 = promises w
              ∧ executionQueue w1 = executionQueue w) as (Hs1' & Hps1 & Heq1)
        by (by rewrite Hw1).
      rewrite Ht1, Ht, Hq1, Hs1, Hs1', <-app_assoc.
      split_and!; [done..|]. intros n Hn.
      rewrite (concluded_promises _ _ _ n Hn)
        by (rewrite Hps1; by apply Hpend).
      rewrite Heq1. split.
      * by intros -> _.
      * intros [Hne|[[=]|Hin%elem_of_nil]%elem_of_cons]; [|done].
        by destruct (executionQueue w).
Qed.

(** ** A pass from its admission to its end *)

Lemma pass_summary w0 acts w2 :
  exclusive w0 -> passOf w0 acts w2 ->
  let order := sortByPriority (queue w0) in
  let res := passResults order ∅ in
  trace w2 = trace w0 ++ passEvents order ++ [EvPassDone res]
  ∧ queue w2 = [] ∧ suspended w2 = []
  ∧ (executionQueue w0 = [] -> CallExecute ∉ acts ->
     promises w2 !! length (promises w0) = Some (Fulfilled res))
  ∧ (executionQueue w0 ≠ [] ∨ CallExecute ∈ acts ->
     promises w2 !! length (promises w0) = Some (Fulfilled ∅)).
Proof.
  intros Hex (Hp & Hq & Hrun & Hidle) order res.
  unfold exclusive in Hex. rewrite Hp in Hex.
  rewrite step_execute in Hrun. simpl in Hrun. rewrite Hp in Hrun.
  rewrite bool_decide_eq_false_2 in Hrun by done.
  set (w1 := setPerforming true (setPromises (promises w0 ++ [Pending]) w0)) in *.
  pose proof (runLoop_meets [length (promises w0)] order ∅ w1 w1
                (onlyTrace_refl w1)) as Hm.
  fold order in Hrun.
  destruct (runLoop [length (promises w0)] order ∅ w1) as [f wp|r wp].
  - destruct Hm as (HW & Ht & Hr & _ & Hwp). unfold onlyTrace in Hwp.
    simpl in Hrun, Ht, Hwp. rewrite Hwp, Hex in Hrun. simpl in Hrun.
    apply parked_pass with (f := f) in Hrun as (Ht2 & Hq2 & Hs2 & Hprom);
      [|done|done| |done].
    + simpl in Ht2, Hprom. fold res in Hr. rewrite Hr in Ht2, Hprom.
      split_and!; [|done|done|apply Hprom|apply Hprom].
      * by rewrite Ht2, !app_assoc, Ht.
      * rewrite HW. by apply list_elem_of_singleton.
      * rewrite HW. by apply list_elem_of_singleton.
    + intros n. rewrite HW. intros ->%list_elem_of_singleton. simpl.
      by apply list_lookup_middle.
  - destruct Hm as (Ht & -> & _ & Hwp). unfold onlyTrace in Hwp.
    simpl in Hrun, Ht, Hwp. fold res in Hrun |- *.
    destruct (concluded_fields [length (promises w0)] res wp)
      as (Hp1 & Hq1 & Hs1 & Ht1 & _).
    destruct (runPass_idle _ _ _ Hp1 Hrun) as [-> ->].
    assert (suspended wp = [] ∧ promises wp = promises w0 ++ [Pending]
            ∧ executionQueue wp = executionQueue w0) as (Hs1' & Hps1 & Heq1)
      by (by rewrite Hwp).
    assert (promises wp !! length (promises w0) = Some Pending) as Hpend.
    { rewrite Hps1. by apply list_lookup_middle. }
    rewrite Ht1, Ht, Hq1, Hs1, Hs1', <-app_assoc.
    rewrite (concluded_promises _ _ _ (length (promises w0)))
      by (done || by apply list_elem_of_singleton).
    rewrite Heq1. split_and!; [done..| |].
    + by intros -> _.
    + intros [Hne|Hin%elem_of_nil]; [|done]. by destruct (executionQueue w0).
Qed.

Lemma frameAwaits_pos f : (0 < frameAwaits f)%nat.
Proof. unfold frameAwaits. destruct (awaiting f); lia. Qed.

(** Waking a parked pass often enough brings it to its end. *)
Lemma parked_pass_ends n : ∀ w f,
  isPerforming w = true -> suspended w = [f] -> frameAwaits f = n ->
  ∃ w2, runPass (replicate n (Wake 0)) w = Some w2 ∧ isPerforming w2 = false.
Proof.
  induction n as [|n IH]; intros w f Hp Hs Hn.
  { pose proof (frameAwaits_pos f). lia. }
  simpl. rewrite Hp, (step_wake 0 f) by (by rewrite Hs).
  rewrite Hs. simpl delete.
  pose proof (resume_meets f (setSuspended [] w)) as Hm. rewrite Hn in Hm.
  destruct (resume f (setSuspended [] w)) as [f1 w1|res w1].
  - destruct Hm as (_ & _ & _ & Hn1 & Hw1). unfold onlyTrace in Hw1.
    apply (IH _ f1); [|by rewrite Hw1|done]. by rewrite Hw1.
  - destruct Hm as (_ & _ & Hn1 & _). simpl in Hn1. subst n.
    eexists. split; [done|]. apply concluded_fields.
Qed.

Lemma pass_ends w0 :
  exclusive w0 -> isPerforming w0 = false -> queue w0 ≠ [] ->
  ∃ w2, passOf w0 (replicate (passAwaits (sortByPriority (queue w0))) (Wake 0)) w2.
Proof.
  intros Hex Hp Hq. unfold exclusive in Hex. rewrite Hp in Hex.
  unfold passOf. rewrite step_execute. simpl. rewrite Hp.
  rewrite bool_decide_eq_false_2 by done.
  set (order := sortByPriority (queue w0)).
  set (w1 := setPerforming true (setPromises (promises w0 ++ [Pending]) w0)).
  pose proof (runLoop_meets [length (promises w0)] order ∅ w1 w1
                (onlyTrace_refl w1)) as Hm.
  destruct (runLoop [length (promises w0)] order ∅ w1) as [f wp|r wp].
  - destruct Hm as (_ & _ & _ & Hn & Hwp). unfold onlyTrace in Hwp.
    destruct (parked_pass_ends (passAwaits order)
                (finish [length (promises w0)] (Parked f wp)) f)
      as (w2 & Hrun & Hidle);
      [by rewrite Hwp|rewrite Hwp; simpl; by rewrite Hex|done|].
    exists w2. by rewrite Hrun.
  - destruct Hm as (_ & _ & -> & _). eexists. split_and!; [done|done|done|].
    apply concluded_fields.
Qed.

(** ** The results and the calls of a pass *)





Lemma sortByPriority_uniqueIds q : uniqueIds q -> uniqueIds (sortByPriority q).
Proof. unfold uniqueIds. by rewrite sortByPriority_perm. Qed.

Lemma sortByPriority_elem_of q x : x ∈ sortByPriority q ↔ x ∈ q.
Proof. by rewrite sortByPriority_perm. Qed.


Lemma invocations_itemEvents item : invocations (itemEvents item) = [id item].
Proof.
  unfold itemEvents, timerEvents, invocations.
  by repeat case_bool_decide.
Qed.

Lemma invocations_passEvents items : invocations (passEvents items) = id <$> items.
Proof.
  induction items as [|a rest IH]; [done|].
  rewrite passEvents_cons. unfold invocations in *.
  rewrite omap_app, IH. fold (invocations (itemEvents a)).
  by rewrite invocations_itemEvents.
Qed.

Lemma invoke_in_itemEvents item : EvInvoke (id item) ∈ itemEvents item.
Proof.
  unfold itemEvents. apply elem_of_app. right. apply elem_of_app. left. constructor.
Qed.

Lemma invoke_in_passEvents items x :
  x ∈ items -> EvInvoke (id x) ∈ passEvents items.
Proof.
  intros Hx. unfold passEvents. apply list_elem_of_bind.
  exists x. split; [apply invoke_in_itemEvents|done].
Qed.

(** The converse of [sortByPriority_order] for equal priorities. *)
Lemma sortByPriority_keeps_ties q x y :
  priority x = priority y -> [x; y] `sublist_of` q ->
  [x; y] `sublist_of` sortByPriority q.
Proof.
  intros Heq Hs.
  apply (sublist_filter_mono (λ i, priority i = priority x)) in Hs.
  rewrite <-(sortByPriority_stable _ q) in Hs.
  rewrite !filter_cons_True, filter_nil in Hs by done.
  etrans; [exact Hs|]. apply sublist_filter.
Qed.

(** * Main results *)

(** The early return of line 133, as a step. *)
Lemma step_execute_idle_empty w :
  isPerforming w = false -> queue w = [] ->
  step CallExecute w = Some (setPromises (promises w ++ [Fulfilled ∅]) w).
Proof.
  intros Hp Hq. rewrite step_execute. simpl. rewrite Hp, Hq. simpl.
  unfold settle, fulfil. simpl. rewrite list_lookup_middle by done.
  by rewrite insert_app_r_alt, Nat.sub_diag by done.
Qed.

(** C9: [execute()] called while no pass is running and the store is empty
    resolves at once to the empty mapping: the promise handed to the caller
    is already fulfilled with [∅] when the call returns, no timer is set and
    nothing is parked, and [isPerforming] is never set on the way. *)
Theorem execute_on_empty_store w :
  isPerforming w = false -> queue w = [] ->
  ∃ w', step CallExecute w = Some w'
    ∧ promises w' = promises w ++ [Fulfilled ∅]
    ∧ isPerforming w' = false
    ∧ trace w' = trace w
    ∧ suspended w' = suspended w
    ∧ executionQueue w' = executionQueue w
    ∧ queue w' = [].
Proof.
  intros Hp Hq. rewrite step_execute_idle_empty by done.
  eexists. split; [done|]. by simpl.
Qed.

Lemma execute_on_empty_store_witness :
  ∃ w', step CallExecute initial = Some w'
    ∧ promises w' = promises initial ++ [Fulfilled ∅]
    ∧ isPerforming w' = false
    ∧ trace w' = trace initial
    ∧ suspended w' = suspended initial
    ∧ executionQueue w' = executionQueue initial
    ∧ queue w' = [].
Proof. apply (execute_on_empty_store initial); reflexivity. Defined.

(** C6: the store never holds two items of one id.  In every reachable
    world the ids of [queue] are pairwise distinct, and every operation keeps
    it so; [orchestrate] removes the item that had the id and appends the
    new one.  Registering [x] with priority 1 and then with priority 5
    leaves the single item of priority 5, and a pass over it runs that item
    and builds a mapping with the one entry for [x]. *)
Theorem store_holds_one_item_per_id w k eff options e1 e5 :
  reachable w ->
  uniqueIds (queue w)
  ∧ (∀ a w', step a w = Some w' -> uniqueIds (queue w'))
  ∧ (∃ w', step (CallOrchestrate k eff options) w = Some w'
       ∧ queue w' = filter (λ i, id i ≠ k) (queue w) ++ [makeItem k eff options])
  ∧ (∃ wx, run [CallOrchestrate "x" e1 (withPriority 1);
                CallOrchestrate "x" e5 (withPriority 5)] initial = Some wx
       ∧ queue wx = [makeItem "x" e5 (withPriority 5)]
       ∧ ∀ acts w2, passOf wx acts w2 ->
           eventsSince wx w2
           = itemEvents (makeItem "x" e5 (withPriority 5))
             ++ [EvPassDone {[ "x" := entry (makeItem "x" e5 (withPriority 5)) ]}]).
Proof.
  intros Hw. pose proof (reachable_uniqueIds w Hw) as Hu. split_and!.
  - done.
  - intros a w'. by apply step_uniqueIds.
  - eexists. split; [done|]. simpl. by apply orchestrate_unique.
  - eexists. split; [reflexivity|]. split; [reflexivity|].
    intros acts w2 Hpass.
    apply pass_summary in Hpass as (Ht & _); [|done].
    unfold eventsSince. rewrite Ht. simpl trace. simpl length. unfold drop.
    simpl. unfold passEvents. simpl. reflexivity.
Qed.

Lemma store_holds_one_item_per_id_witness :
  uniqueIds (queue initial)
  ∧ (∀ a w', step a initial = Some w' -> uniqueIds (queue w'))
  ∧ (∃ w', step (CallOrchestrate "x" (Throws (ThrownOther "no")) noOptions) initial
           = Some w'
       ∧ queue w'
         = filter (λ i, id i ≠ "x") (queue initial)
           ++ [makeItem "x" (Throws (ThrownOther "no")) noOptions])
  ∧ (∃ wx, run [CallOrchestrate "x" (Returns (Fulfils VUndefined)) (withPriority 1);
                CallOrchestrate "x" (Returns (Fulfils (VNumber 5))) (withPriority 5)]
               initial = Some wx
       ∧ queue wx = [makeItem "x" (Returns (Fulfils (VNumber 5))) (withPriority 5)]
       ∧ ∀ acts w2, passOf wx acts w2 ->
           eventsSince wx w2
           = itemEvents (makeItem "x" (Returns (Fulfils (VNumber 5))) (withPriority 5))
             ++ [EvPassDone {[ "x" := entry (makeItem "x" (Returns (Fulfils (VNumber 5)))
                                                     (withPriority 5)) ]}]).
Proof.
  apply (store_holds_one_item_per_id initial "x" (Throws (ThrownOther "no")) noOptions
           (Returns (Fulfils VUndefined)) (Returns (Fulfils (VNumber 5)))).
  exists []. reflexivity.
Defined.

(** C10: registering an id that is already in the store moves the item to
    the end of the insertion order: the new item comes after every other
    item of the store, so among items of its priority it runs last.
    Registering [x], then [y], then [x] again, all of priority 0, gives the
    run order [y], [x]. *)
Theorem reregistered_item_moves_to_end w k eff options old ex ey ex' :
  reachable w -> old ∈ queue w -> id old = k ->
  let item := makeItem k eff options in
  (∃ w', step (CallOrchestrate k eff options) w = Some w'
     ∧ queue w' = filter (λ i, id i ≠ k) (queue w) ++ [item]
     ∧ (∀ y, y ∈ queue w -> id y ≠ k -> [y; item] `sublist_of` queue w')
     ∧ (∀ y, y ∈ queue w -> id y ≠ k -> priority y = priority item ->
          [y; item] `sublist_of` sortByPriority (queue w')))
  ∧ (∃ w3, run [CallOrchestrate "x" ex noOptions; CallOrchestrate "y" ey noOptions;
                CallOrchestrate "x" ex' noOptions] initial = Some w3
       ∧ sortByPriority (queue w3)
         = [makeItem "y" ey noOptions; makeItem "x" ex' noOptions]).
Proof.
  intros Hw Hold Hid item. split; [|eexists; split; reflexivity].
  pose proof (reachable_uniqueIds w Hw) as Hu.
  assert (∀ y, y ∈ queue w -> id y ≠ k ->
            [y; item] `sublist_of` filter (λ i, id i ≠ k) (queue w) ++ [item])
    as Hlast.
  { intros y Hy Hne. apply (sublist_app [y] _ [item] [item]); [|done].
    apply singleton_sublist_l, list_elem_of_filter. done. }
  eexists. split; [done|]. simpl. rewrite orchestrate_unique by done.
  split_and!; [done|done|].
  intros y Hy Hne Hprio. apply sortByPriority_keeps_ties; [done|]. by apply Hlast.
Qed.

Lemma reregistered_item_moves_to_end_witness :
  let w := setQueue [makeItem "x" (Returns (Fulfils VUndefined)) noOptions;
                     makeItem "y" (Returns (Fulfils VUndefined)) noOptions] initial in
  let item := makeItem "x" (Returns (Fulfils (VNumber 1))) noOptions in
  (∃ w', step (CallOrchestrate "x" (Returns (Fulfils (VNumber 1))) noOptions) w
         = Some w'
     ∧ queue w' = filter (λ i, id i ≠ "x") (queue w) ++ [item]
     ∧ (∀ y, y ∈ queue w -> id y ≠ "x" -> [y; item] `sublist_of` queue w')
     ∧ (∀ y, y ∈ queue w -> id y ≠ "x" -> priority y = priority item ->
          [y; item] `sublist_of` sortByPriority (queue w')))
  ∧ (∃ w3, run [CallOrchestrate "x" (Throws (ThrownError "e")) noOptions;
                CallOrchestrate "y" (Throws (ThrownError "e")) noOptions;
                CallOrchestrate "x" (Throws (ThrownError "e")) noOptions] initial
           = Some w3
       ∧ sortByPriority (queue w3)
         = [makeItem "y" (Throws (ThrownError "e")) noOptions;
            makeItem "x" (Throws (ThrownError "e")) noOptions]).
Proof.
  apply (reregistered_item_moves_to_end
           (setQueue [makeItem "x" (Returns (Fulfils VUndefined)) noOptions;
                      makeItem "y" (Returns (Fulfils VUndefined)) noOptions] initial)
           "x" (Returns (Fulfils (VNumber 1))) noOptions
           (makeItem "x" (Returns (Fulfils VUndefined)) noOptions)).
  - exists [CallOrchestrate "x" (Returns (Fulfils VUndefined)) noOptions;
            CallOrchestrate "y" (Returns (Fulfils VUndefined)) noOptions].
    reflexivity.
  - simpl. constructor.
  - reflexivity.
Defined.

(** ** Passes *)

Lemma eventsSince_app w0 w2 (t : list Event) :
  trace w2 = trace w0 ++ t -> eventsSince w0 w2 = t.
Proof. intros Ht. unfold eventsSince. rewrite Ht. apply drop_app_length. Qed.

Lemma passOf_admitted w0 acts w2 :
  passOf w0 acts w2 -> isPerforming w0 = false ∧ queue w0 ≠ [].
Proof. by intros (? & ? & _). Qed.

(** C3: a pass calls the effects in descending order of priority, items of
    equal priority in the order of their registration.  The run order is a
    rearrangement of the store in which an item that comes before another
    has at least its priority and, at equal priority, comes before it in
    the store too; a pass always reaches its end when its timers fire and
    its effects settle, and the effects it called are those of the run
    order, in that order.  For [a] (priority 1), [b] (3) and [c] (2) the
    calls are [b], [c], [a]. *)
Theorem pass_runs_by_priority w0 ea eb ec :
  reachable w0 -> isPerforming w0 = false -> queue w0 ≠ [] ->
  let order := sortByPriority (queue w0) in
  order ≡ₚ queue w0
  ∧ (∀ x y, [x; y] `sublist_of` order ->
       priority y <= priority x
       ∧ (priority x = priority y -> [x; y] `sublist_of` queue w0))
  ∧ (∃ acts w2, passOf w0 acts w2)
  ∧ (∀ acts w2, passOf w0 acts w2 -> invocations (eventsSince w0 w2) = id <$> order)
  ∧ (∃ w, run [CallOrchestrate "a" ea (withPriority 1);
               CallOrchestrate "b" eb (withPriority 3);
               CallOrchestrate "c" ec (withPriority 2)] initial = Some w
       ∧ ∀ acts w2, passOf w acts w2 ->
           invocations (eventsSince w w2) = ["b"; "c"; "a"]).
Proof.
  intros Hw Hp Hq order.
  assert (∀ w, reachable w -> ∀ acts w2, passOf w acts w2 ->
            invocations (eventsSince w w2) = id <$> sortByPriority (queue w))
    as Hcalls.
  { intros w Hr acts w2 Hpass.
    apply pass_summary in Hpass as (Ht & _); [|by apply reachable_exclusive].
    rewrite (eventsSince_app _ _ _ Ht). unfold invocations.
    rewrite omap_app. simpl. rewrite app_nil_r. apply invocations_passEvents. }
  split_and!.
  - apply sortByPriority_perm.
  - intros x y. apply sortByPriority_order.
  - destruct (pass_ends w0) as [w2 Hpass]; [by apply reachable_exclusive|done..|].
    eauto.
  - by apply Hcalls.
  - eexists. split; [reflexivity|]. intros acts w2 Hpass.
    apply Hcalls in Hpass; [by rewrite Hpass|].
    by exists [CallOrchestrate "a" ea (withPriority 1);
               CallOrchestrate "b" eb (withPriority 3);
               CallOrchestrate "c" ec (withPriority 2)].
Qed.

Lemma pass_runs_by_priority_witness :
  let order := sortByPriority (queue afterABC) in
  order ≡ₚ queue afterABC
  ∧ (∀ x y, [x; y] `sublist_of` order ->
       priority y <= priority x
       ∧ (priority x = priority y -> [x; y] `sublist_of` queue afterABC))
  ∧ (∃ acts w2, passOf afterABC acts w2)
  ∧ (∀ acts w2, passOf afterABC acts w2 ->
       invocations (eventsSince afterABC w2) = id <$> order)
  ∧ (∃ w, run [CallOrchestrate "a" (Throws (ThrownError "x")) (withPriority 1);
               CallOrchestrate "b" (Returns (Fulfils VUndefined)) (withPriority 3);
               CallOrchestrate "c" (Returns (Rejects (ThrownOther "y")))
                               (withPriority 2)] initial = Some w
       ∧ ∀ acts w2, passOf w acts w2 ->
           invocations (eventsSince w w2) = ["b"; "c"; "a"]).
Proof.
  apply (pass_runs_by_priority afterABC (Throws (ThrownError "x"))
           (Returns (Fulfils VUndefined)) (Returns (Rejects (ThrownOther "y")))).
  - exists registerABC. reflexivity.
  - reflexivity.
  - vm_compute. discriminate.
Defined.


(** C8: within a pass the items are taken one after the other, in the run
    order, each with its whole turn: the timer of a positive pre-delay is set
    with that delay and fires before the effect is called, the entry is
    written once the effect has settled, the timer of a positive post-delay
    is set with that delay and fires before the turn of the next item begins;
    a delay of zero sets no timer. *)
Theorem items_run_one_after_another w0 acts w2 :
  reachable w0 -> passOf w0 acts w2 ->
  (∃ res, eventsSince w0 w2
          = (sortByPriority (queue w0) ≫= itemEvents) ++ [EvPassDone res])
  ∧ ∀ item, ∃ pre post,
      itemEvents item
      = pre ++ [EvInvoke (id item); EvStore (id item) (entry item)] ++ post
      ∧ (0 < preDelay item ->
         pre = [EvSetTimeout (id item) (preDelay item); EvTimerFired (id item)])
      ∧ (preDelay item = 0 -> pre = [])
      ∧ (0 < postDelay item ->
         post = [EvSetTimeout (id item) (postDelay item); EvTimerFired (id item)])
      ∧ (postDelay item = 0 -> post = []).
Proof.
  intros Hw Hpass. split.
  - apply pass_summary in Hpass as (Ht & _); [|by apply reachable_exclusive].
    eexists. by apply eventsSince_app.
  - intros item.
    exists (timerEvents (id item) (preDelay item)),
           (timerEvents (id item) (postDelay item)).
    split; [done|]. unfold timerEvents.
    split_and!; intros Hd; case_bool_decide; try done; lia.
Qed.

Lemma items_run_one_after_another_witness :
  ∃ w2, passOf afterABC [Wake 0; Wake 0; Wake 0; Wake 0] w2
  ∧ (∃ res, eventsSince afterABC w2
            = (sortByPriority (queue afterABC) ≫= itemEvents) ++ [EvPassDone res])
  ∧ ∀ item, ∃ pre post,
      itemEvents item
      = pre ++ [EvInvoke (id item); EvStore (id item) (entry item)] ++ post
      ∧ (0 < preDelay item ->
         pre = [EvSetTimeout (id item) (preDelay item); EvTimerFired (id item)])
      ∧ (preDelay item = 0 -> pre = [])
      ∧ (0 < postDelay item ->
         post = [EvSetTimeout (id item) (postDelay item); EvTimerFired (id item)])
      ∧ (postDelay item = 0 -> post = []).
Proof.
  eexists. split; [|apply (items_run_one_after_another afterABC
                            [Wake 0; Wake 0; Wake 0; Wake 0])].
  - split_and!; [reflexivity|vm_compute; discriminate|vm_compute; reflexivity
                 |reflexivity].
  - exists registerABC. reflexivity.
  - split_and!; [reflexivity|vm_compute; discriminate|vm_compute; reflexivity
                 |reflexivity].
Defined.

(** The schedule of the example session: [b] throws at once, [c] waits
    1000 ms, rejects and waits 500 ms, then [a] runs. *)
Example scheduleABC :
  take 9 ∘ eventsSince afterABC
    <$> (step CallExecute afterABC ≫= runPass [Wake 0; Wake 0; Wake 0; Wake 0])
  = Some [EvInvoke "b"; EvStore "b" (VErrorDescriptor "boom");
          EvSetTimeout "c" 1000; EvTimerFired "c";
          EvInvoke "c"; EvStore "c" (VErrorDescriptor "late");
          EvSetTimeout "c" 500; EvTimerFired "c";
          EvInvoke "a"].
Proof. vm_compute. reflexivity. Qed.

(** ** Serialization *)

Lemma step_queue_origin a w w' x :
  step a w = Some w' -> x ∈ queue w' ->
  x ∈ queue w ∨ ∃ k eff options, a = CallOrchestrate k eff options
                                ∧ x = makeItem k eff options.
Proof.
  destruct a as [k eff options|k| |n].
  - intros [= <-]. simpl. unfold orchestrate.
    destruct (list_find (hasId k) (queue w)) as [[pos y]|].
    + intros [Hx|Hx%list_elem_of_singleton]%elem_of_app; [|right; eauto].
      left. eapply elem_of_sublist; [exact Hx|apply sublist_delete].
    + intros [Hx|Hx%list_elem_of_singleton]%elem_of_app; [by left|right; eauto].
  - intros [= <-]. simpl. unfold cancel.
    destruct (list_find (hasId k) (queue w)) as [[pos y]|]; [|by left].
    intros Hx. left. eapply elem_of_sublist; [exact Hx|apply sublist_delete].
  - rewrite step_execute. intros [= <-]. simpl.
    destruct (isPerforming w); [by left|]. case_bool_decide; [by left|].
    edestruct finish_queue as [-> | ->];
      [apply runLoop_meets, onlyTrace_refl|by left|by intros ?%elem_of_nil].
  - destruct (suspended w !! n) as [f|] eqn:Hf; [|by unfold step; rewrite Hf].
    rewrite (step_wake n f) by done. intros [= <-].
    edestruct finish_queue as [-> | ->];
      [apply resume_meets|by left|by intros ?%elem_of_nil].
Qed.

Lemma run_queue_origin acts : ∀ w w' x,
  run acts w = Some w' -> x ∈ queue w' ->
  x ∈ queue w ∨ ∃ k eff options, CallOrchestrate k eff options ∈ acts
                                ∧ x = makeItem k eff options.
Proof.
  induction acts as [|a acts IH]; intros w w' x; simpl.
  - intros [= <-]. by left.
  - destruct (step a w) as [w1|] eqn:Hstep; [|done]. intros Hrun Hx.
    destruct (IH _ _ _ Hrun Hx) as [Hx1|(k & eff & options & Hin & ->)].
    + destruct (step_queue_origin _ _ _ _ Hstep Hx1)
        as [?|(k & eff & options & -> & ->)]; [by left|].
      right. exists k, eff, options. split; [constructor|done].
    + right. exists k, eff, options. split; [by constructor|done].
Qed.

(** A step that ends a pass leaves the store empty. *)
Lemma pass_end_clears a w w' :
  isPerforming w = true -> step a w = Some w' -> isPerforming w' = false ->
  queue w' = [].
Proof.
  intros Hp. destruct a as [k eff options|k| |n].
  - intros [= <-]. simpl. congruence.
  - intros [= <-]. simpl. congruence.
  - rewrite step_execute. simpl. rewrite Hp. intros [= <-]. simpl. congruence.
  - destruct (suspended w !! n) as [f|] eqn:Hf; [|by unfold step; rewrite Hf].
    rewrite (step_wake n f) by done. intros [= <-].
    pose proof (resume_meets f (setSuspended (delete n (suspended w)) w)) as Hm.
    destruct (resume f _) as [f1 w1|res w1]; simpl.
    + destruct Hm as (_ & _ & _ & _ & ->). simpl. congruence.
    + intros _. apply concluded_fields.
Qed.

(** C5: a call of [execute()] made while a pass is running starts no second
    pass.  In every reachable world at most one activation of [execute] is
    inside a pass, and there is one exactly when [isPerforming] is set; a
    call made then only appends its continuation to [executionQueue] and
    leaves the caller's promise pending; and the step that ends a pass leaves
    the store empty, so whatever a later pass finds in it was registered
    after that. *)
Theorem passes_never_overlap w :
  reachable w ->
  (length (suspended w) <= 1)%nat
  ∧ (isPerforming w = true ↔ length (suspended w) = 1%nat)
  ∧ (isPerforming w = true ->
     ∃ w', step CallExecute w = Some w'
       ∧ suspended w' = suspended w ∧ isPerforming w' = true
       ∧ queue w' = queue w ∧ trace w' = trace w
       ∧ promises w' = promises w ++ [Pending]
       ∧ executionQueue w' = executionQueue w ++ [[length (promises w)]])
  ∧ (∀ a w1, isPerforming w = true -> step a w = Some w1 ->
       isPerforming w1 = false ->
       queue w1 = []
       ∧ ∀ acts w2 x, run acts w1 = Some w2 -> x ∈ queue w2 ->
           ∃ k eff options, CallOrchestrate k eff options ∈ acts
                            ∧ x = makeItem k eff options).
Proof.
  intros Hw. pose proof (reachable_exclusive w Hw) as Hex. unfold exclusive in Hex.
  split_and!.
  - destruct (isPerforming w); [destruct Hex as [f ->]|rewrite Hex]; simpl; lia.
  - destruct (isPerforming w); [destruct Hex as [f ->]|rewrite Hex]; done.
  - intros Hp. rewrite step_execute. simpl. rewrite Hp. eexists. split; done.
  - intros a w1 Hp Hstep Hidle.
    pose proof (pass_end_clears a w w1 Hp Hstep Hidle) as Hq. split; [done|].
    intros acts w2 x Hrun Hx.
    destruct (run_queue_origin acts w1 w2 x Hrun Hx) as [Hin|?]; [|done].
    rewrite Hq in Hin. by apply elem_of_nil in Hin.
Qed.

Lemma passes_never_overlap_witness :
  let w := default initial (run [registerA; CallExecute] initial) in
  (length (suspended w) <= 1)%nat
  ∧ (isPerforming w = true ↔ length (suspended w) = 1%nat)
  ∧ (isPerforming w = true ->
     ∃ w', step CallExecute w = Some w'
       ∧ suspended w' = suspended w ∧ isPerforming w' = true
       ∧ queue w' = queue w ∧ trace w' = trace w
       ∧ promises w' = promises w ++ [Pending]
       ∧ executionQueue w' = executionQueue w ++ [[length (promises w)]])
  ∧ (∀ a w1, isPerforming w = true -> step a w = Some w1 ->
       isPerforming w1 = false ->
       queue w1 = []
       ∧ ∀ acts w2 x, run acts w1 = Some w2 -> x ∈ queue w2 ->
           ∃ k eff options, CallOrchestrate k eff options ∈ acts
                            ∧ x = makeItem k eff options).
Proof.
  apply (passes_never_overlap (default initial (run [registerA; CallExecute] initial))).
  exists [registerA; CallExecute]. reflexivity.
Defined.

(** ** What the code does for the requests around a drained continuation *)

Lemma idle_run_keeps_pending more : ∀ w w' (n : nat),
  isPerforming w = false -> suspended w = [] -> queue w = [] ->
  promises w !! n = Some Pending ->
  Forall registersNothing more -> run more w = Some w' ->
  promises w' !! n = Some Pending ∧ executionQueue w' = executionQueue w
  ∧ isPerforming w' = false ∧ suspended w' = [] ∧ queue w' = [].
Proof.
  induction more as [|a more IH]; intros w w' n Hp Hs Hq Hn Hall; simpl.
  { by intros [= <-]. }
  apply Forall_cons in Hall as [Ha Hall].
  destruct a as [k eff options|k| |m]; [done| | |].
  - change (step (CallCancel k) w) with (Some (setQueue (cancel k (queue w)) w)).
    intros Hrun. apply IH with (n := n) in Hrun; try done.
    simpl. by rewrite Hq.
  - rewrite step_execute_idle_empty by done.
    intros Hrun. apply IH with (n := n) in Hrun as (? & -> & ?); try done.
    simpl. by apply lookup_app_l_Some.
  - unfold step. by rewrite Hs.
Qed.

(** C1, as the code behaves: [a] is registered, [execute()] is called
    (promise 0) and, while the effect of [a] is pending, called again
    (promise 1).  When the effect settles the pass ends with the mapping
    [{a: "A"}], the continuation of the second call is drained, and both
    promises are fulfilled with the empty mapping. *)
Theorem drained_pass_returns_empty_mapping :
  ∃ w, run [registerA; CallExecute; CallExecute; Wake 0] initial = Some w
    ∧ last (trace w) = Some (EvPassDone {[ "a" := VString "A" ]})
    ∧ promises w = [Fulfilled ∅; Fulfilled ∅]
    ∧ isPerforming w = false ∧ executionQueue w = [] ∧ suspended w = [].
Proof. eexists. split_and!; vm_compute; reflexivity. Qed.

(** The same for every pass: the promise of the call that started it is
    fulfilled with the empty mapping as soon as a continuation is waiting
    when the pass ends. *)
Lemma drained_pass_requester w0 acts w2 :
  reachable w0 -> passOf w0 acts w2 ->
  executionQueue w0 ≠ [] ∨ CallExecute ∈ acts ->
  promises w2 !! length (promises w0) = Some (Fulfilled ∅).
Proof.
  intros Hw Hpass. by apply pass_summary; [apply reachable_exclusive|].
Qed.

(** C2, as the code behaves: with two calls of [execute()] deferred during a
    pass (promises 1 and 2), the end of the pass drains the first
    continuation only.  The second stays in [executionQueue] and its promise
    stays pending whatever happens next, as long as nothing is registered. *)
Theorem second_deferred_request_stays_pending :
  ∃ w, run [registerA; CallExecute; CallExecute; CallExecute; Wake 0] initial
       = Some w
    ∧ promises w = [Fulfilled ∅; Fulfilled ∅; Pending]
    ∧ executionQueue w = [[2%nat]]
    ∧ isPerforming w = false ∧ suspended w = [] ∧ queue w = []
    ∧ ∀ more w', Forall registersNothing more -> run more w = Some w' ->
        promises w' !! 2%nat = Some Pending ∧ executionQueue w' = [[2%nat]].
Proof.
  eexists. split; [vm_compute; reflexivity|]. split_and!; try reflexivity.
  intros more w' Hall Hrun.
  by apply idle_run_keeps_pending with (n := 2%nat) in Hrun as (? & ? & _).
Qed.

(** C7, as the code behaves: [a] is registered, [execute()] is called
    (promise 0) and called again while the effect of [a] is pending.  The
    pass is over the one item [a] and the store is empty once it has ended,
    but the mapping the first call returns is the empty one: it has no entry
    under [a], the id of the item of the pass. *)
Theorem returned_mapping_misses_the_snapshot :
  ∃ w0 w2 r, run [registerA] initial = Some w0
    ∧ id <$> queue w0 = ["a"]
    ∧ passOf w0 [CallExecute; Wake 0] w2
    ∧ promises w2 !! length (promises w0) = Some (Fulfilled r)
    ∧ r !! "a" = None ∧ dom r = ∅
    ∧ invocations (eventsSince w0 w2) = ["a"]
    ∧ queue w2 = [].
Proof.
  eexists _, _, _. split; [vm_compute; reflexivity|]. split; [reflexivity|].
  split.
  { split_and!; [reflexivity|vm_compute; discriminate|vm_compute; reflexivity
                 |reflexivity]. }
  split; [vm_compute; reflexivity|]. split_and!; vm_compute; reflexivity.
Qed.

(** * Further properties of the engine *)

(** ** [cancel] and [orchestrate] on the store *)

Lemma setQueue_same w : setQueue (queue w) w = w.
Proof. by destruct w. Qed.

Lemma filter_other_twice k q :
  filter (λ i, id i ≠ k) (filter (λ i, id i ≠ k) q) = filter (λ i, id i ≠ k) q.
Proof.
  induction q as [|a q IH]; [done|]. rewrite (filter_cons _ a q).
  destruct (decide (id a ≠ k)); [|done]. rewrite filter_cons_True by done.
  by rewrite IH.
Qed.

Lemma filter_other_comm k1 k2 q :
  filter (λ i, id i ≠ k1) (filter (λ i, id i ≠ k2) q)
  = filter (λ i, id i ≠ k2) (filter (λ i, id i ≠ k1) q).
Proof.
  induction q as [|a q IH]; [done|]. rewrite !(filter_cons _ a q).
  destruct (decide (id a ≠ k2)), (decide (id a ≠ k1));
    rewrite ?filter_cons_True, ?filter_cons_False by done; by rewrite ?IH.
Qed.

Lemma filter_other_absent k q : k ∉ id <$> filter (λ i, id i ≠ k) q.
Proof.
  intros (x & -> & Hx)%list_elem_of_fmap. by apply list_elem_of_filter in Hx as [? _].
Qed.

(** X1: [cancel(id)] removes the item of that id and nothing else: the
    other items stay, in their order, no item of that id is left, and the
    rest of the engine is untouched; for an id the store does not hold, the
    call changes nothing at all. *)
Theorem cancel_removes_that_id_only w k :
  reachable w ->
  ∃ w', step (CallCancel k) w = Some w'
    ∧ queue w' = filter (λ i, id i ≠ k) (queue w)
    ∧ (k ∉ id <$> queue w')
    ∧ (k ∉ (id <$> queue w) -> w' = w)
    ∧ isPerforming w' = isPerforming w ∧ executionQueue w' = executionQueue w
    ∧ suspended w' = suspended w ∧ promises w' = promises w ∧ trace w' = trace w.
Proof.
  intros Hw. pose proof (reachable_uniqueIds w Hw) as Hu.
  eexists. split; [done|]. simpl. rewrite cancel_unique by done.
  split_and!; try done.
  - apply filter_other_absent.
  - intros Hk. rewrite filter_absent by done. apply setQueue_same.
Qed.

Lemma cancel_removes_that_id_only_witness :
  ∃ w', step (CallCancel "b") afterABC = Some w'
    ∧ queue w' = filter (λ i, id i ≠ "b") (queue afterABC)
    ∧ ("b" ∉ id <$> queue w')
    ∧ ("b" ∉ (id <$> queue afterABC) -> w' = afterABC)
    ∧ isPerforming w' = isPerforming afterABC
    ∧ executionQueue w' = executionQueue afterABC
    ∧ suspended w' = suspended afterABC ∧ promises w' = promises afterABC
    ∧ trace w' = trace afterABC.
Proof.
  apply (cancel_removes_that_id_only afterABC "b").
  exists registerABC. reflexivity.
Defined.

(** X2: how registering and cancelling one id compose.  Cancelling after
    registering is cancelling; registering after cancelling is registering;
    of two registrations of an id only the second counts; and for an id the
    store did not hold, registering and then cancelling gives the store
    back. *)
Theorem orchestrate_cancel_round_trips w k eff options eff' options' :
  reachable w ->
  run [CallOrchestrate k eff options; CallCancel k] w = run [CallCancel k] w
  ∧ run [CallCancel k; CallOrchestrate k eff options] w
    = run [CallOrchestrate k eff options] w
  ∧ run [CallOrchestrate k eff options; CallOrchestrate k eff' options'] w
    = run [CallOrchestrate k eff' options'] w
  ∧ (k ∉ (id <$> queue w) ->
     run [CallOrchestrate k eff options; CallCancel k] w = Some w).
Proof.
  intros Hw. pose proof (reachable_uniqueIds w Hw) as Hu.
  pose proof (orchestrate_uniqueIds k eff options (queue w) Hu) as Hu1.
  pose proof (cancel_uniqueIds k (queue w) Hu) as Hu2.
  assert (filter (λ i, id i ≠ k) (filter (λ i, id i ≠ k) (queue w)
                                   ++ [makeItem k eff options])
          = filter (λ i, id i ≠ k) (queue w)) as Hdrop.
  { rewrite filter_app, filter_other_twice.
    rewrite filter_cons_False by (by intros []). by rewrite filter_nil, app_nil_r. }
  assert (cancel k (orchestrate k eff options (queue w)) = cancel k (queue w))
    as Hoc.
  { rewrite (cancel_unique k (orchestrate _ _ _ _)) by done.
    by rewrite orchestrate_unique, cancel_unique, Hdrop by done. }
  split_and!.
  - simpl. unfold step. simpl. by rewrite Hoc.
  - simpl. unfold step. simpl.
    rewrite (orchestrate_unique k eff options (cancel _ _)) by done.
    by rewrite cancel_unique, orchestrate_unique, filter_other_twice by done.
  - simpl. unfold step. simpl.
    rewrite (orchestrate_unique k eff' options' (orchestrate _ _ _ _)) by done.
    by rewrite !orchestrate_unique, Hdrop by done.
  - intros Hk. simpl. unfold step. simpl. rewrite Hoc.
    rewrite cancel_unique, filter_absent by done. by destruct w.
Qed.

Lemma orchestrate_cancel_round_trips_witness :
  run [CallOrchestrate "d" (Throws (ThrownOther "no")) noOptions; CallCancel "d"]
      afterABC
  = run [CallCancel "d"] afterABC
  ∧ run [CallCancel "d"; CallOrchestrate "d" (Throws (ThrownOther "no")) noOptions]
        afterABC
    = run [CallOrchestrate "d" (Throws (ThrownOther "no")) noOptions] afterABC
  ∧ run [CallOrchestrate "d" (Throws (ThrownOther "no")) noOptions;
         CallOrchestrate "d" (Returns (Fulfils VUndefined)) (withPriority 7)]
        afterABC
    = run [CallOrchestrate "d" (Returns (Fulfils VUndefined)) (withPriority 7)]
          afterABC
  ∧ ("d" ∉ (id <$> queue afterABC) ->
     run [CallOrchestrate "d" (Throws (ThrownOther "no")) noOptions; CallCancel "d"]
         afterABC
     = Some afterABC).
Proof.
  apply (orchestrate_cancel_round_trips afterABC "d" (Throws (ThrownOther "no"))
           noOptions (Returns (Fulfils VUndefined)) (withPriority 7)).
  exists registerABC. reflexivity.
Defined.

(** X3: calls about different ids do not disturb each other: two
    cancellations can be swapped, and so can the cancellation of one id and
    the registration of another. *)
Theorem calls_on_other_ids_commute w k1 k2 eff options :
  reachable w -> k1 ≠ k2 ->
  run [CallCancel k1; CallCancel k2] w = run [CallCancel k2; CallCancel k1] w
  ∧ run [CallOrchestrate k1 eff options; CallCancel k2] w
    = run [CallCancel k2; CallOrchestrate k1 eff options] w.
Proof.
  intros Hw Hne. pose proof (reachable_uniqueIds w Hw) as Hu.
  pose proof (orchestrate_uniqueIds k1 eff options (queue w) Hu) as Hu1.
  pose proof (cancel_uniqueIds k1 (queue w) Hu) as Hc1.
  pose proof (cancel_uniqueIds k2 (queue w) Hu) as Hc2.
  split.
  - simpl. unfold step. simpl.
    rewrite (cancel_unique k2 (cancel _ _)), (cancel_unique k1 (cancel _ _)) by done.
    by rewrite !cancel_unique, filter_other_comm by done.
  - simpl. unfold step. simpl.
    rewrite (cancel_unique k2 (orchestrate _ _ _ _)) by done.
    rewrite (orchestrate_unique k1 eff options (cancel _ _)) by done.
    rewrite orchestrate_unique, cancel_unique by done.
    rewrite filter_app, filter_other_comm.
    by rewrite filter_cons_True, filter_nil by done.
Qed.

Lemma calls_on_other_ids_commute_witness :
  run [CallCancel "a"; CallCancel "c"] afterABC
  = run [CallCancel "c"; CallCancel "a"] afterABC
  ∧ run [CallOrchestrate "a" (Returns (Fulfils VUndefined)) noOptions; CallCancel "c"]
        afterABC
    = run [CallCancel "c"; CallOrchestrate "a" (Returns (Fulfils VUndefined)) noOptions]
          afterABC.
Proof.
  apply (calls_on_other_ids_commute afterABC "a" "c").
  - exists registerABC. reflexivity.
  - discriminate.
Defined.

(** ** What a pass does with the store it finds *)

Lemma invoke_elem_invocations k (t : list Event) :
  EvInvoke k ∈ t ↔ k ∈ invocations t.
Proof.
  unfold invocations. rewrite list_elem_of_omap. split.
  - intros Hin. by exists (EvInvoke k).
  - intros (e & Hin & He). destruct e; simplify_eq. done.
Qed.

Lemma pass_events w0 acts w2 :
  reachable w0 -> passOf w0 acts w2 ->
  eventsSince w0 w2
  = passEvents (sortByPriority (queue w0))
    ++ [EvPassDone (passResults (sortByPriority (queue w0)) ∅)].
Proof.
  intros Hw Hpass.
  apply pass_summary in Hpass as (Ht & _); [|by apply reachable_exclusive].
  by apply eventsSince_app.
Qed.

Lemma pass_invocations w0 acts w2 :
  reachable w0 -> passOf w0 acts w2 ->
  invocations (eventsSince w0 w2) = id <$> sortByPriority (queue w0).
Proof.
  intros Hw Hpass. rewrite (pass_events w0 acts w2) by done.
  unfold invocations. rewrite omap_app. simpl. rewrite app_nil_r.
  apply invocations_passEvents.
Qed.



(** X5: what the environment does while a pass is running has no influence
    on it: two runs of a pass from the same world show the same events and
    leave the store empty, whatever was registered, cancelled or requested
    in between; in particular an item cancelled after the pass has begun is
    called all the same. *)
Theorem running_pass_ignores_the_environment w0 acts acts' w2 w2' :
  reachable w0 -> passOf w0 acts w2 -> passOf w0 acts' w2' ->
  eventsSince w0 w2 = eventsSince w0 w2'
  ∧ queue w2 = [] ∧ queue w2' = []
  ∧ ∀ x, x ∈ queue w0 -> CallCancel (id x) ∈ acts ->
      EvInvoke (id x) ∈ eventsSince w0 w2.
Proof.
  intros Hw Hpass Hpass'.
  pose proof (reachable_exclusive w0 Hw) as Hex.
  pose proof (pass_summary w0 acts w2 Hex Hpass) as (_ & Hq & _).
  pose proof (pass_summary w0 acts' w2' Hex Hpass') as (_ & Hq' & _).
  split_and!; [|done|done|].
  - by rewrite (pass_events w0 acts w2), (pass_events w0 acts' w2').
  - intros x Hx _.
    rewrite invoke_elem_invocations, (pass_invocations w0 acts w2) by done.
    by apply list_elem_of_fmap_2, sortByPriority_elem_of.
Qed.

Lemma running_pass_ignores_the_environment_witness :
  ∃ w2 w2',
    passOf afterABC [Wake 0; CallCancel "a"; Wake 0; Wake 0; Wake 0] w2
    ∧ passOf afterABC [Wake 0; Wake 0; Wake 0; CallExecute; Wake 0] w2'
    ∧ eventsSince afterABC w2 = eventsSince afterABC w2'
    ∧ queue w2 = [] ∧ queue w2' = []
    ∧ ∀ x, x ∈ queue afterABC ->
        CallCancel (id x) ∈ [Wake 0; CallCancel "a"; Wake 0; Wake 0; Wake 0] ->
        EvInvoke (id x) ∈ eventsSince afterABC w2.
Proof.
  eexists _, _. split; [|split];
    [| |apply (running_pass_ignores_the_environment afterABC
                 [Wake 0; CallCancel "a"; Wake 0; Wake 0; Wake 0]
                 [Wake 0; Wake 0; Wake 0; CallExecute; Wake 0])].
  - split_and!; [reflexivity|vm_compute; discriminate|vm_compute; reflexivity
                 |reflexivity].
  - split_and!; [reflexivity|vm_compute; discriminate|vm_compute; reflexivity
                 |reflexivity].
  - exists registerABC. reflexivity.
  - split_and!; [reflexivity|vm_compute; discriminate|vm_compute; reflexivity
                 |reflexivity].
  - split_and!; [reflexivity|vm_compute; discriminate|vm_compute; reflexivity
                 |reflexivity].
Defined.

(** X6: when no item of the store has a higher priority than an item
    registered before it (as when no priority is given at all), the pass
    calls the effects in the order of registration. *)
Theorem sorted_store_runs_as_registered w0 acts w2 :
  reachable w0 -> StronglySorted byPriority (queue w0) -> passOf w0 acts w2 ->
  sortByPriority (queue w0) = queue w0
  ∧ invocations (eventsSince w0 w2) = id <$> queue w0.
Proof.
  intros Hw Hsorted Hpass.
  assert (sortByPriority (queue w0) = queue w0) as Hsame.
  { symmetry. by apply stable_sort_unique. }
  split; [done|]. by rewrite (pass_invocations w0 acts w2), Hsame.
Qed.

Lemma sorted_store_runs_as_registered_witness :
  ∃ w2, passOf afterXYZ [] w2
  ∧ sortByPriority (queue afterXYZ) = queue afterXYZ
  ∧ invocations (eventsSince afterXYZ w2) = id <$> queue afterXYZ.
Proof.
  eexists. split; [|apply (sorted_store_runs_as_registered afterXYZ [])].
  - split_and!; [reflexivity|vm_compute; discriminate|vm_compute; reflexivity
                 |reflexivity].
  - exists registerXYZ. reflexivity.
  - repeat constructor; unfold byPriority; simpl; lia.
  - split_and!; [reflexivity|vm_compute; discriminate|vm_compute; reflexivity
                 |reflexivity].
Defined.

(** ** The [timeout] option *)

Lemma insertByPriority_withoutTimeout a l :
  insertByPriority (withoutTimeout a) (withoutTimeout <$> l)
  = withoutTimeout <$> insertByPriority a l.
Proof.
  induction l as [|b l IH]; [done|].
  rewrite fmap_cons. cbn [insertByPriority withoutTimeout priority].
  destruct (priority b - priority a <=? 0); rewrite !fmap_cons; [done|].
  by rewrite <-IH.
Qed.

Lemma sortByPriority_cons a l :
  sortByPriority (a :: l) = insertByPriority a (sortByPriority l).
Proof. done. Qed.

Lemma sortByPriority_withoutTimeout l :
  sortByPriority (withoutTimeout <$> l) = withoutTimeout <$> sortByPriority l.
Proof.
  induction l as [|a l IH]; [done|].
  rewrite fmap_cons, !sortByPriority_cons, IH.
  apply insertByPriority_withoutTimeout.
Qed.

Lemma passEvents_withoutTimeout items :
  passEvents (withoutTimeout <$> items) = passEvents items.
Proof.
  induction items as [|a items IH]; [done|].
  rewrite fmap_cons, !passEvents_cons, IH. done.
Qed.

Lemma passResults_withoutTimeout items res :
  passResults (withoutTimeout <$> items) res = passResults items res.
Proof.
  revert res. induction items as [|a items IH]; intros res; [done|].
  rewrite fmap_cons.
  change (passResults (withoutTimeout a :: (withoutTimeout <$> items)) res)
    with (passResults (withoutTimeout <$> items) (<[id a := entry a]> res)).
  by rewrite IH.
Qed.

(** X7: the [timeout] option is stored and never read: a pass over a store
    shows the same events, with the same mapping at its end, as a pass over
    the same items registered without a timeout. *)
Theorem timeout_is_never_read w0 w0' acts acts' w2 w2' :
  reachable w0 -> reachable w0' ->
  queue w0' = withoutTimeout <$> queue w0 ->
  passOf w0 acts w2 -> passOf w0' acts' w2' ->
  eventsSince w0 w2 = eventsSince w0' w2'.
Proof.
  intros Hw Hw' Hq Hpass Hpass'.
  rewrite (pass_events w0 acts w2), (pass_events w0' acts' w2') by done.
  rewrite Hq, sortByPriority_withoutTimeout.
  by rewrite passEvents_withoutTimeout, passResults_withoutTimeout.
Qed.

Lemma timeout_is_never_read_witness :
  let slow := CallOrchestrate "s" (Returns (Fulfils (VString "S")))
                              (mkOptions (Some 1) (Some 20) None (Some 5)) in
  let plain := CallOrchestrate "s" (Returns (Fulfils (VString "S")))
                               (mkOptions (Some 1) (Some 20) None None) in
  let w0 := default initial (run [slow] initial) in
  let w0' := default initial (run [plain] initial) in
  ∃ w2 w2', passOf w0 [Wake 0; Wake 0] w2 ∧ passOf w0' [Wake 0; Wake 0] w2'
    ∧ eventsSince w0 w2 = eventsSince w0' w2'.
Proof.
  intros slow plain w0 w0'. eexists _, _.
  split; [|split]; [| |apply (timeout_is_never_read w0 w0' [Wake 0; Wake 0]
                                                    [Wake 0; Wake 0])].
  - split_and!; [reflexivity|vm_compute; discriminate|vm_compute; reflexivity
                 |reflexivity].
  - split_and!; [reflexivity|vm_compute; discriminate|vm_compute; reflexivity
                 |reflexivity].
  - exists [slow]. reflexivity.
  - exists [plain]. reflexivity.
  - reflexivity.
  - split_and!; [reflexivity|vm_compute; discriminate|vm_compute; reflexivity
                 |reflexivity].
  - split_and!; [reflexivity|vm_compute; discriminate|vm_compute; reflexivity
                 |reflexivity].
Defined.

(** ** Calls and timers of a pass *)

(** X8: a pass calls the effect of every item of the store it found exactly
    once: the calls it makes are one per item, no id twice. *)
Theorem each_effect_is_called_once w0 acts w2 :
  reachable w0 -> passOf w0 acts w2 ->
  NoDup (invocations (eventsSince w0 w2))
  ∧ length (invocations (eventsSince w0 w2)) = length (queue w0)
  ∧ ∀ x, x ∈ queue w0 -> id x ∈ invocations (eventsSince w0 w2).
Proof.
  intros Hw Hpass. rewrite (pass_invocations w0 acts w2) by done.
  split_and!.
  - apply sortByPriority_uniqueIds, reachable_uniqueIds, Hw.
  - by rewrite length_fmap, sortByPriority_perm.
  - intros x Hx. by apply list_elem_of_fmap_2, sortByPriority_elem_of.
Qed.

Lemma each_effect_is_called_once_witness :
  ∃ w2, passOf afterABC [Wake 0; Wake 0; Wake 0; Wake 0] w2
  ∧ NoDup (invocations (eventsSince afterABC w2))
  ∧ length (invocations (eventsSince afterABC w2)) = length (queue afterABC)
  ∧ ∀ x, x ∈ queue afterABC -> id x ∈ invocations (eventsSince afterABC w2).
Proof.
  eexists. split; [|apply (each_effect_is_called_once afterABC
                            [Wake 0; Wake 0; Wake 0; Wake 0])].
  - split_and!; [reflexivity|vm_compute; discriminate|vm_compute; reflexivity
                 |reflexivity].
  - exists registerABC. reflexivity.
  - split_and!; [reflexivity|vm_compute; discriminate|vm_compute; reflexivity
                 |reflexivity].
Defined.

Lemma delaysSet_app (t1 t2 : list Event) :
  delaysSet (t1 ++ t2) = delaysSet t1 + delaysSet t2.
Proof.
  induction t1 as [|e t1 IH]; [done|]. simpl. fold (delaysSet (t1 ++ t2)).
  fold (delaysSet t1). rewrite IH. destruct e; lia.
Qed.

Lemma delaysSet_itemEvents x : delaysSet (itemEvents x) = preDelay x + postDelay x.
Proof.
  unfold itemEvents, timerEvents. rewrite !delaysSet_app.
  repeat case_bool_decide; simpl; lia.
Qed.

Lemma delaysSet_passEvents items : delaysSet (passEvents items) = delaysAsked items.
Proof.
  induction items as [|x items IH]; [done|].
  rewrite passEvents_cons, delaysSet_app, delaysSet_itemEvents, IH. done.
Qed.

Lemma delaysAsked_cons a l :
  delaysAsked (a :: l) = preDelay a + postDelay a + delaysAsked l.
Proof. done. Qed.

Lemma delaysAsked_insert a l :
  delaysAsked (insertByPriority a l) = delaysAsked (a :: l).
Proof.
  induction l as [|b l IH]; [done|]. simpl insertByPriority.
  destruct (priority b - priority a <=? 0); [done|].
  rewrite (delaysAsked_cons b), IH, !delaysAsked_cons. lia.
Qed.

Lemma delaysAsked_sort l : delaysAsked (sortByPriority l) = delaysAsked l.
Proof.
  induction l as [|a l IH]; [done|].
  by rewrite sortByPriority_cons, delaysAsked_insert, !delaysAsked_cons, IH.
Qed.

(** X9: the timers a pass sets add up to the delays its items ask for: the
    sum of the milliseconds passed to [setTimeout] during the pass is the sum
    of [preDelay + postDelay] over the items of the store it found. *)
Theorem timers_add_up_to_the_delays w0 acts w2 :
  reachable w0 -> passOf w0 acts w2 ->
  delaysSet (eventsSince w0 w2) = delaysAsked (queue w0).
Proof.
  intros Hw Hpass. rewrite (pass_events w0 acts w2) by done.
  rewrite delaysSet_app, delaysSet_passEvents, delaysAsked_sort. simpl. lia.
Qed.

Lemma timers_add_up_to_the_delays_witness :
  ∃ w2, passOf afterABC [Wake 0; Wake 0; Wake 0; Wake 0] w2
  ∧ delaysSet (eventsSince afterABC w2) = delaysAsked (queue afterABC).
Proof.
  eexists. split; [|apply (timers_add_up_to_the_delays afterABC
                            [Wake 0; Wake 0; Wake 0; Wake 0])].
  - split_and!; [reflexivity|vm_compute; discriminate|vm_compute; reflexivity
                 |reflexivity].
  - exists registerABC. reflexivity.
  - split_and!; [reflexivity|vm_compute; discriminate|vm_compute; reflexivity
                 |reflexivity].
Defined.

(** ** The status flag *)

Lemma pass_end_event a w w' :
  isPerforming w = true -> step a w = Some w' -> isPerforming w' = false ->
  ∃ (n : nat) res, a = Wake n ∧ last (trace w') = Some (EvPassDone res).
Proof.
  intros Hp. destruct a as [k eff options|k| |n].
  - intros [= <-]. simpl. congruence.
  - intros [= <-]. simpl. congruence.
  - rewrite step_execute. simpl. rewrite Hp. intros [= <-]. simpl. congruence.
  - destruct (suspended w !! n) as [f|] eqn:Hf; [|by unfold step; rewrite Hf].
    rewrite (step_wake n f) by done. intros [= <-].
    pose proof (resume_meets f (setSuspended (delete n (suspended w)) w)) as Hm.
    destruct (resume f _) as [f1 w1|res w1]; simpl.
    + destruct Hm as (_ & _ & _ & _ & ->). simpl. congruence.
    + intros _. exists n, res. split; [done|].
      destruct (concluded_fields (waiters f) res w1) as (_ & _ & _ & -> & _).
      apply last_snoc.
Qed.

(** X10: the status flag changes at the two ends of a pass and nowhere
    else.  It goes up only in a call of [execute()] that finds a non-empty
    store, which then has its one activation parked; it goes down only when
    a wake-up lets the pass reach its end, with the store emptied;
    [orchestrate] and [cancel] never change it. *)
Theorem flag_changes_at_pass_boundaries_only a w w' :
  reachable w -> step a w = Some w' ->
  (isPerforming w = false -> isPerforming w' = true ->
   a = CallExecute ∧ queue w ≠ [] ∧ length (suspended w') = 1%nat)
  ∧ (isPerforming w = true -> isPerforming w' = false ->
     (∃ n : nat, a = Wake n) ∧ queue w' = []
     ∧ ∃ res, last (trace w') = Some (EvPassDone res))
  ∧ (a ≠ CallExecute -> (∀ n : nat, a ≠ Wake n) ->
     isPerforming w' = isPerforming w).
Proof.
  intros Hw Hstep.
  pose proof (reachable_exclusive w Hw) as Hex.
  pose proof (step_exclusive a w w' Hex Hstep) as Hex'.
  split_and!.
  - intros Hp Hp'. unfold exclusive in Hex, Hex'. rewrite Hp in Hex.
    rewrite Hp' in Hex'. destruct Hex' as [f ->].
    destruct a as [k eff options|k| |n].
    + injection Hstep as <-. simpl in Hp'. congruence.
    + injection Hstep as <-. simpl in Hp'. congruence.
    + split_and!; [done| |done]. intros Hq.
      rewrite step_execute in Hstep. simpl in Hstep.
      rewrite Hp, Hq in Hstep. injection Hstep as <-. simpl in Hp'. congruence.
    + unfold step in Hstep. by rewrite Hex in Hstep.
  - intros Hp Hp'.
    destruct (pass_end_event a w w' Hp Hstep Hp') as (n & res & -> & Hlast).
    split_and!; [by exists n| |by exists res].
    by apply (pass_end_clears (Wake n) w w').
  - intros Hne Hnw. destruct a as [k eff options|k| |n].
    + by injection Hstep as <-.
    + by injection Hstep as <-.
    + done.
    + by destruct (Hnw n).
Qed.

Lemma flag_changes_at_pass_boundaries_only_witness :
  ∃ w',
    step CallExecute afterABC = Some w'
    ∧ (isPerforming afterABC = false -> isPerforming w' = true ->
       CallExecute = CallExecute ∧ queue afterABC ≠ []
       ∧ length (suspended w') = 1%nat)
    ∧ (isPerforming afterABC = true -> isPerforming w' = false ->
       (∃ n : nat, CallExecute = Wake n) ∧ queue w' = []
       ∧ ∃ res, last (trace w') = Some (EvPassDone res))
    ∧ (CallExecute ≠ CallExecute -> (∀ n : nat, CallExecute ≠ Wake n) ->
       isPerforming w' = isPerforming afterABC).
Proof.
  eexists. split; [|apply (flag_changes_at_pass_boundaries_only CallExecute afterABC)].
  - vm_compute. reflexivity.
  - exists registerABC. reflexivity.
  - vm_compute. reflexivity.
Defined.

(** ** Calls made while a pass is running *)

Lemma fulfil_length r (ps : list PromiseState) (n : nat) :
  length (fulfil r ps n) = length ps.
Proof.
  unfold fulfil. destruct (ps !! n) as [[| |]|]; try done. apply length_insert.
Qed.

Lemma settle_length r W w : length (promises (settle W r w)) = length (promises w).
Proof.
  unfold settle. simpl. generalize (promises w).
  induction W as [|n W IH]; intros ps; [done|]. simpl.
  by rewrite IH, fulfil_length.
Qed.

Lemma concluded_length W res w :
  length (promises (concluded W res w)) = length (promises w).
Proof.
  unfold concluded. simpl. destruct (executionQueue w); by rewrite settle_length.
Qed.

Lemma finish_waitersBounded W o w0 t r m :
  meets W t r m w0 o -> waitersBounded w0 ->
  (∀ n : nat, n ∈ W -> (n < length (promises w0))%nat) ->
  waitersBounded (finish W o).
Proof.
  unfold waitersBounded. destruct o as [f w|res w]; simpl.
  - intros (<- & _ & _ & _ & ->) Hb HW f' [Hf|Hf%list_elem_of_singleton]%elem_of_app n Hn;
      simpl in *; [by eapply Hb|subst f'; by apply HW].
  - intros (_ & _ & _ & Hw) Hb HW f Hf n Hn. unfold onlyTrace in Hw.
    destruct (concluded_fields W res w) as (_ & _ & Hs & _).
    rewrite concluded_length. rewrite Hs in Hf. rewrite Hw in Hf |- *.
    by eapply Hb.
Qed.

Lemma step_waitersBounded a w w' :
  waitersBounded w -> step a w = Some w' -> waitersBounded w'.
Proof.
  intros Hb. destruct a as [k eff options|k| |n].
  - by intros [= <-].
  - by intros [= <-].
  - rewrite step_execute. intros [= <-]. simpl.
    assert (waitersBounded (setPromises (promises w ++ [Pending]) w)) as Hb1.
    { intros f Hf n Hn. simpl. rewrite length_app. specialize (Hb f Hf n Hn). lia. }
    destruct (isPerforming w); [done|]. case_bool_decide.
    + intros f Hf n Hn. rewrite settle_length. by apply (Hb1 f).
    + eapply finish_waitersBounded;
        [apply runLoop_meets, onlyTrace_refl|done|].
      intros n ->%list_elem_of_singleton. simpl. rewrite length_app. simpl. lia.
  - destruct (suspended w !! n) as [f|] eqn:Hf; [|by unfold step; rewrite Hf].
    rewrite (step_wake n f) by done. intros [= <-].
    eapply finish_waitersBounded; [apply resume_meets| |].
    + intros f' Hf' m Hm. simpl in *. apply (Hb f'); [|done].
      eapply elem_of_sublist; [exact Hf'|apply sublist_delete].
    + intros m Hm. simpl. apply (Hb f); [|done].
      by eapply list_elem_of_lookup_2.
Qed.

Lemma reachable_waitersBounded w : reachable w -> waitersBounded w.
Proof.
  apply (reachable_ind waitersBounded).
  - by intros f ?%elem_of_nil.
  - intros a w1 w2 _. apply step_waitersBounded.
Qed.

Lemma concluded_deferredState W res w (n : nat) :
  (promises w !! n = Some Pending -> n ∉ W) ->
  deferredState n w -> deferredState n (concluded W res w).
Proof.
  intros HW Hd. unfold deferredState, concluded, settle. simpl.
  destruct (executionQueue w) as [|c others] eqn:Hc; simpl;
    rewrite settled_lookup.
  - destruct Hd as [(_ & Hin & _)|Hd]; [by rewrite Hc in Hin; apply elem_of_nil in Hin|].
    right. by rewrite Hd.
  - destruct Hd as [(Hp & Hin & Hfr)|Hd]; [|right; by rewrite Hd].
    rewrite Hp. destruct (decide (n ∈ c ++ W)) as [Hyes|Hno]; [by right|].
    left. split_and!; [done| |done].
    rewrite Hc in Hin. simpl in Hin.
    apply elem_of_app in Hin as [Hin|Hin]; [|done].
    destruct Hno. apply elem_of_app. by left.
Qed.

Lemma finish_deferredState W o w0 t r m (n : nat) :
  meets W t r m w0 o ->
  (promises w0 !! n = Some Pending -> n ∉ W) ->
  deferredState n w0 -> deferredState n (finish W o).
Proof.
  destruct o as [f w|res w]; simpl.
  - intros (<- & _ & _ & _ & ->) HW [(Hp & Hin & Hfr)|Hd]; [|by right].
    left. simpl. split_and!; [done|done|].
    intros f' [Hf|Hf%list_elem_of_singleton]%elem_of_app;
      [by apply Hfr|subst f'; by apply HW].
  - intros (_ & _ & _ & Hw) HW Hd. unfold onlyTrace in Hw.
    apply concluded_deferredState; rewrite Hw; simpl; [done|].
    destruct Hd as [(Hp & Hin & Hfr)|Hd]; [left|right]; done.
Qed.

Lemma step_deferredState a w w' (n : nat) :
  deferredState n w -> step a w = Some w' -> deferredState n w'.
Proof.
  intros Hd. destruct a as [k eff options|k| |m].
  - by intros [= <-].
  - by intros [= <-].
  - rewrite step_execute. intros [= <-]. simpl.
    assert ((n < length (promises w))%nat) as Hlt.
    { destruct Hd as [(Hp & _)|Hp]; by eapply lookup_lt_Some. }
    assert (n ∉ [length (promises w)]) as Hfresh.
    { intros ->%list_elem_of_singleton. lia. }
    assert (deferredState n (setPromises (promises w ++ [Pending]) w)) as Hd1.
    { destruct Hd as [(Hp & Hin & Hfr)|Hp]; [left|right]; simpl;
        rewrite lookup_app_l by done; done. }
    destruct (isPerforming w).
    + destruct Hd1 as [(Hp & Hin & Hfr)|Hp]; [left|by right].
      simpl in *. split_and!; [done| |done].
      rewrite join_app. apply elem_of_app. by left.
    + case_bool_decide.
      * unfold deferredState, settle. simpl. rewrite fulfil_lookup.
        destruct Hd1 as [(Hp & Hin & Hfr)|Hp]; simpl in *; rewrite Hp.
        -- left. by rewrite decide_False by lia.
        -- by right.
      * eapply finish_deferredState;
          [apply runLoop_meets, onlyTrace_refl|done|done].
  - destruct (suspended w !! m) as [f|] eqn:Hf; [|by unfold step; rewrite Hf].
    rewrite (step_wake m f) by done. intros [= <-].
    eapply finish_deferredState; [apply resume_meets| |].
    + simpl. intros Hp. destruct Hd as [(_ & _ & Hfr)|Hd]; [|congruence].
      apply Hfr. by eapply list_elem_of_lookup_2.
    + destruct Hd as [(Hp & Hin & Hfr)|Hd]; [left|by right].
      simpl. split_and!; [done|done|]. intros f' Hf'. apply Hfr.
      eapply elem_of_sublist; [exact Hf'|apply sublist_delete].
Qed.

Lemma run_deferredState acts : ∀ w w' (n : nat),
  deferredState n w -> run acts w = Some w' -> deferredState n w'.
Proof.
  induction acts as [|a acts IH]; intros w w' n Hd; simpl.
  - by intros [= <-].
  - destruct (step a w) as [w1|] eqn:Hstep; [|done].
    apply IH. by eapply step_deferredState.
Qed.

(** X12: a call of [execute()] made while a pass is running never receives
    the results of any pass: whatever happens afterwards, its promise is
    either still pending or fulfilled with the empty mapping. *)
Theorem deferred_call_never_gets_results w w1 acts w2 :
  reachable w -> isPerforming w = true ->
  step CallExecute w = Some w1 -> run acts w1 = Some w2 ->
  promises w2 !! length (promises w) = Some Pending
  ∨ promises w2 !! length (promises w) = Some (Fulfilled ∅).
Proof.
  intros Hw Hp Hstep Hrun.
  pose proof (reachable_waitersBounded w Hw) as Hb.
  assert (deferredState (length (promises w)) w1) as Hd.
  { rewrite step_execute in Hstep. simpl in Hstep. rewrite Hp in Hstep.
    injection Hstep as <-. left. simpl. split_and!.
    - by apply list_lookup_middle.
    - rewrite join_app. apply elem_of_app. right. simpl. constructor.
    - intros f Hf Hn. specialize (Hb f Hf _ Hn). lia. }
  destruct (run_deferredState acts w1 w2 _ Hd Hrun) as [(? & _)|?]; eauto.
Qed.

Lemma deferred_call_never_gets_results_witness :
  let w := default initial (run (registerABC ++ [CallExecute; Wake 0]) initial) in
  ∃ w1 w2, step CallExecute w = Some w1
    ∧ run [Wake 0; Wake 0; Wake 0; registerA; CallExecute; Wake 0] w1 = Some w2
    ∧ (promises w2 !! length (promises w) = Some Pending
       ∨ promises w2 !! length (promises w) = Some (Fulfilled ∅)).
Proof.
  intros w. eexists _, _.
  split; [vm_compute; reflexivity|]. split; [vm_compute; reflexivity|].
  eapply (deferred_call_never_gets_results w) with
    (acts := [Wake 0; Wake 0; Wake 0; registerA; CallExecute; Wake 0]).
  - exists (registerABC ++ [CallExecute; Wake 0]). vm_compute. reflexivity.
  - reflexivity.
  - vm_compute. reflexivity.
  - vm_compute. reflexivity.
Defined.

(** ** [useOrchestRateEffect] *)

Lemma run_useOrchestRateEffect w k eff options :
  run (useOrchestRateEffect k eff options) w
  = step CallExecute (setQueue (orchestrate k eff options (queue w)) w).
Proof.
  unfold useOrchestRateEffect. simpl.
  change (step (CallOrchestrate k eff options) w)
    with (Some (setQueue (orchestrate k eff options (queue w)) w)).
  simpl. by destruct (step CallExecute _).
Qed.

Lemma orchestrate_not_empty k eff options q : orchestrate k eff options q ≠ [].
Proof.
  unfold orchestrate. destruct (list_find (hasId k) q) as [[pos x]|];
    intros [_ [=]]%app_eq_nil.
Qed.

Lemma orchestrate_keeps_others k eff options q x :
  x ∈ q -> id x ≠ k -> uniqueIds q -> x ∈ orchestrate k eff options q.
Proof.
  intros Hx Hne Hu. rewrite orchestrate_unique by done.
  apply elem_of_app. left. by apply list_elem_of_filter.
Qed.

(** X13: the effect body of [useOrchestRateEffect], run while no pass is
    running, starts a pass over a store that holds the given item: when that
    pass has reached its end, it has called the given effect and the effect
    of every other item the store held. *)
Theorem hook_on_idle_engine_calls_its_effect w k eff options acts w2 :
  reachable w -> isPerforming w = false ->
  run (useOrchestRateEffect k eff options) w ≫= runPass acts = Some w2 ->
  isPerforming w2 = false ->
  EvInvoke k ∈ eventsSince w w2
  ∧ ∀ x, x ∈ queue w -> id x ≠ k -> EvInvoke (id x) ∈ eventsSince w w2.
Proof.
  intros Hw Hp Hrun Hidle. rewrite run_useOrchestRateEffect in Hrun.
  set (w' := setQueue (orchestrate k eff options (queue w)) w) in *.
  assert (reachable w') as Hw'
    by (by apply (reachable_step (CallOrchestrate k eff options) w)).
  pose proof (reachable_uniqueIds w Hw) as Hu.
  assert (queue w' ≠ []) as Hq by apply orchestrate_not_empty.
  assert (makeItem k eff options ∈ queue w') as Hitem.
  { simpl. rewrite orchestrate_unique by done. apply elem_of_app. right. constructor. }
  assert (passOf w' acts w2) as Hpass by done.
  assert (∀ x, x ∈ queue w' -> EvInvoke (id x) ∈ eventsSince w w2) as Hcalled.
  { intros x Hx. change (eventsSince w w2) with (eventsSince w' w2).
    rewrite invoke_elem_invocations, (pass_invocations w' acts w2) by done.
    by apply list_elem_of_fmap_2, sortByPriority_elem_of. }
  split.
  - apply (Hcalled (makeItem k eff options) Hitem).
  - intros x Hx Hne. apply Hcalled. by apply orchestrate_keeps_others.
Qed.

Lemma hook_on_idle_engine_calls_its_effect_witness :
  ∃ w2,
    run (useOrchestRateEffect "d" (Returns (Fulfils (VString "D"))) (withPriority 9))
        afterABC ≫= runPass [Wake 0; Wake 0; Wake 0; Wake 0; Wake 0] = Some w2
    ∧ isPerforming w2 = false
    ∧ EvInvoke "d" ∈ eventsSince afterABC w2
    ∧ ∀ x, x ∈ queue afterABC -> id x ≠ "d" ->
        EvInvoke (id x) ∈ eventsSince afterABC w2.
Proof.
  eexists. split; [vm_compute; reflexivity|]. split; [reflexivity|].
  eapply (hook_on_idle_engine_calls_its_effect afterABC "d"
            (Returns (Fulfils (VString "D"))) (withPriority 9))
    with (acts := [Wake 0; Wake 0; Wake 0; Wake 0; Wake 0]).
  - exists registerABC. vm_compute. reflexivity.
  - reflexivity.
  - vm_compute. reflexivity.
  - reflexivity.
Defined.

(** X14: an item registered while a pass is running, as by
    [useOrchestRateEffect] in a component that mounts meanwhile, is lost
    when its id is not part of that pass: the pass does not call its effect,
    and [queue.clear()] at the end of the pass removes it from the store. *)
Theorem item_registered_during_a_pass_is_dropped w0 before after w2 k eff options :
  reachable w0 -> (k ∉ id <$> queue w0) ->
  passOf w0 (before ++ useOrchestRateEffect k eff options ++ after) w2 ->
  (EvInvoke k ∉ eventsSince w0 w2) ∧ queue w2 = []
  ∧ (makeItem k eff options ∉ queue w2).
Proof.
  intros Hw Hk Hpass.
  pose proof (pass_summary w0 _ w2 (reachable_exclusive w0 Hw) Hpass)
    as (_ & Hq & _).
  split_and!; [|done|rewrite Hq; apply not_elem_of_nil].
  rewrite invoke_elem_invocations, (pass_invocations w0 _ w2) by done.
  by rewrite sortByPriority_perm.
Qed.

Lemma item_registered_during_a_pass_is_dropped_witness :
  ∃ w2,
    passOf afterABC
      ([Wake 0]
       ++ useOrchestRateEffect "d" (Returns (Fulfils (VString "D"))) noOptions
       ++ [Wake 0; Wake 0; Wake 0]) w2
    ∧ (EvInvoke "d" ∉ eventsSince afterABC w2) ∧ queue w2 = []
    ∧ (makeItem "d" (Returns (Fulfils (VString "D"))) noOptions ∉ queue w2).
Proof.
  eexists. split; [|apply (item_registered_during_a_pass_is_dropped afterABC
                            [Wake 0] [Wake 0; Wake 0; Wake 0])].
  - split_and!; [reflexivity|vm_compute; discriminate|vm_compute; reflexivity
                 |reflexivity].
  - exists registerABC. vm_compute. reflexivity.
  - vm_compute. intros Hin. repeat (apply elem_of_cons in Hin as [[=]|Hin]).
    by apply elem_of_nil in Hin.
  - split_and!; [reflexivity|vm_compute; discriminate|vm_compute; reflexivity
                 |reflexivity].
Defined.

(** ** The run order and the length of a pass *)

(** X15: the run order is determined by the store: it is the one list in
    descending order of priority that holds, for every priority, the items
    of that priority exactly as the store has them. *)
Theorem run_order_is_determined q l' :
  l' = sortByPriority q
  ↔ StronglySorted byPriority l'
    ∧ ∀ p, filter (λ i, priority i = p) l' = filter (λ i, priority i = p) q.
Proof.
  split.
  - intros ->. split; [apply sortByPriority_sorted|].
    intros p. apply sortByPriority_stable.
  - intros [Hs Hf]. by apply stable_sort_unique.
Qed.

Lemma parked_pass_goes_on n : ∀ w f,
  isPerforming w = true -> suspended w = [f] -> (n < frameAwaits f)%nat ->
  ∃ w' f', runPass (replicate n (Wake 0)) w = Some w'
    ∧ isPerforming w' = true ∧ suspended w' = [f']
    ∧ promises w' = promises w ∧ queue w' = queue w
    ∧ frameAwaits f' = (frameAwaits f - n)%nat.
Proof.
  induction n as [|n IH]; intros w f Hp Hs Hn.
  { exists w, f. split_and!; try done. lia. }
  simpl. rewrite Hp, (step_wake 0 f) by (by rewrite Hs).
  rewrite Hs. simpl delete.
  pose proof (resume_meets f (setSuspended [] w)) as Hm.
  destruct (resume f (setSuspended [] w)) as [f1 w1|res w1].
  - destruct Hm as (_ & _ & _ & Hn1 & Hw1). unfold onlyTrace in Hw1.
    destruct (IH (finish (waiters f) (Parked f1 w1)) f1)
      as (w' & f' & Hrun & Hp' & Hs' & Hps & Hq & Hn');
      [by rewrite Hw1|by rewrite Hw1|lia|].
    exists w', f'. rewrite Hrun, Hps, Hq, Hn', Hn1. rewrite Hw1. simpl.
    split_and!; try done. lia.
  - destruct Hm as (_ & _ & Hn1 & _). lia.
Qed.

(** X16: a pass goes through one wake-up for every non-zero delay and every
    effect that returns, and ends with the last of them and not before:
    after fewer wake-ups the flag is still set, the store is still as it was
    found and the caller's promise is still pending. *)
Theorem pass_ends_with_its_last_await w0 n :
  reachable w0 -> isPerforming w0 = false -> queue w0 ≠ [] ->
  (n <= passAwaits (sortByPriority (queue w0)))%nat ->
  ∃ w', step CallExecute w0 ≫= runPass (replicate n (Wake 0)) = Some w'
    ∧ (isPerforming w' = false ↔ n = passAwaits (sortByPriority (queue w0)))
    ∧ (isPerforming w' = true ->
       queue w' = queue w0 ∧ promises w' = promises w0 ++ [Pending]).
Proof.
  intros Hw Hp Hq Hn. pose proof (reachable_exclusive w0 Hw) as Hex.
  destruct (decide (n = passAwaits (sortByPriority (queue w0)))) as [->|Hne].
  { destruct (pass_ends w0 Hex Hp Hq) as (w2 & _ & _ & Hrun & Hidle).
    exists w2. split_and!; [done|done|congruence]. }
  unfold exclusive in Hex. rewrite Hp in Hex.
  rewrite step_execute. simpl. rewrite Hp.
  rewrite bool_decide_eq_false_2 by done.
  set (order := sortByPriority (queue w0)) in *.
  set (w1 := setPerforming true (setPromises (promises w0 ++ [Pending]) w0)).
  pose proof (runLoop_meets [length (promises w0)] order ∅ w1 w1
                (onlyTrace_refl w1)) as Hm.
  destruct (runLoop [length (promises w0)] order ∅ w1) as [f wp|r wp].
  - destruct Hm as (_ & _ & _ & Hf & Hwp). unfold onlyTrace in Hwp.
    destruct (parked_pass_goes_on n (finish [length (promises w0)] (Parked f wp)) f)
      as (w' & f' & Hrun & Hp' & _ & Hps & Hq' & _);
      [by rewrite Hwp|rewrite Hwp; simpl; by rewrite Hex|lia|].
    exists w'. rewrite Hrun, Hp', Hps, Hq'. rewrite Hwp. simpl.
    split_and!; [done| |done]. split; [done|lia].
  - destruct Hm as (_ & _ & Hz & _). lia.
Qed.

Lemma pass_ends_with_its_last_await_witness :
  ∃ w', step CallExecute afterABC ≫= runPass (replicate 2 (Wake 0)) = Some w'
    ∧ (isPerforming w' = false
       ↔ 2%nat = passAwaits (sortByPriority (queue afterABC)))
    ∧ (isPerforming w' = true ->
       queue w' = queue afterABC ∧ promises w' = promises afterABC ++ [Pending]).
Proof.
  apply (pass_ends_with_its_last_await afterABC 2).
  - exists registerABC. vm_compute. reflexivity.
  - reflexivity.
  - vm_compute. discriminate.
  - vm_compute. lia.
Defined.
